(** * Emojify: the mosaic compositor of [video_emojisaic.py]

    A shallow embedding of the palette builder, the region quantizer, the
    block merger and the compositor, and the properties the specification
    states about them.

    Conventions.
    - Python integers supplied by a caller ([size], [zoom], [max_side]) are
      [Z]; array shapes, loop counters and block sides are [nat].
    - numpy arrays of rank two are a shape together with their rows.
    - Python exceptions are values of [exn]; a computation returns [res A].
    - numpy floating point is an abstract ordered arithmetic ([Float]); exact
      rationals are one instance of it. *)

From Stdlib Require Import ZArith QArith Lia.
From Stdlib Require OrdersEx.
From stdpp Require Import base list strings sorting gmap.

Local Open Scope nat_scope.

(** ** Exceptions and results *)

Inductive exn : Type :=
  | IndexError
  | ValueError
  | ZeroDivisionError
  | FileNotFoundError
  | UnidentifiedImageError.

(** [OutOfFuel] is not a Python outcome: it is the answer of a loop model that
    was given too little fuel.  [mosaic_loop_fuel] shows that the fuel
    the model passes is always enough. *)
Inductive res (A : Type) : Type :=
  | Ret (a : A)
  | Raise (e : exn)
  | OutOfFuel.
Arguments Ret {A} a.
Arguments Raise {A} e.
Arguments OutOfFuel {A}.

#[global] Instance res_ret : MRet res := λ A a, Ret a.
#[global] Instance res_bind : MBind res := λ A B f m,
  match m with
  | Ret a => f a
  | Raise e => Raise e
  | OutOfFuel => OutOfFuel
  end.

#[global] Instance res_fmap : FMap res := λ A B f m,
  match m with
  | Ret a => Ret (f a)
  | Raise e => Raise e
  | OutOfFuel => OutOfFuel
  end.

Definition of_option {A} (e : exn) (o : option A) : res A :=
  match o with
  | Some a => Ret a
  | None => Raise e
  end.

(** ** Rank-two numpy arrays *)

Module Np.

Record ndarray (A : Type) : Type := mk_ndarray {
  shape0 : nat;
  shape1 : nat;
  rows_of : list (list A)
}.
Arguments mk_ndarray {A} _ _ _.
Arguments shape0 {A} _.
Arguments shape1 {A} _.
Arguments rows_of {A} _.

(** The buffer agrees with the shape. *)
Definition wf {A} (a : ndarray A) : Prop :=
  length (rows_of a) = shape0 a ∧
  Forall (λ r, length r = shape1 a) (rows_of a).

(** The element at [(r, c)], if the indices are in range. *)
Definition cell {A} (a : ndarray A) (r c : nat) : option A :=
  rows_of a !! r ≫= λ row, row !! c.

(** [a[r, c]] for non-negative indices. *)
Definition getitem {A} (a : ndarray A) (r c : nat) : res A :=
  of_option IndexError (cell a r c).

(** [l[start:stop]] for non-negative bounds; the slice is clipped to the
    list, as in Python. *)
Definition slice1 {A} (start stop : nat) (l : list A) : list A :=
  take (stop - start) (drop start l).

(** [a[r0:r1, c0:c1]] on the rows of an array, as the rows of the view. *)
Definition slice2 {A} (rows : list (list A)) (r0 r1 c0 c1 : nat) : list (list A) :=
  slice1 c0 c1 <$> slice1 r0 r1 rows.

Definition slice {A} (a : ndarray A) (r0 r1 c0 c1 : nat) : list (list A) :=
  slice2 (rows_of a) r0 r1 c0 c1.

(** [np.all] and [np.any] of a boolean block. *)
Definition all (b : list (list bool)) : bool := forallb (forallb id) b.
Definition any (b : list (list bool)) : bool := existsb (existsb id) b.

(** [block == v], elementwise. *)
Definition eq_scalar (b : list (list Z)) (v : Z) : list (list bool) :=
  fmap (M := list) (fmap (M := list) (λ x, Z.eqb x v)) b.

(** [np.zeros((rows, cols), dtype=bool)]. *)
Definition zeros (rows cols : nat) : ndarray bool :=
  mk_ndarray rows cols (replicate rows (replicate cols false)).

Definition in_range (lo hi i : nat) : bool := (lo <=? i) && (i <? hi).

(** [a[r0:r1, c0:c1] = v]. *)
Definition setslice {A} (a : ndarray A) (r0 r1 c0 c1 : nat) (v : A) : ndarray A :=
  mk_ndarray (shape0 a) (shape1 a)
    (imap (λ i row,
       if in_range r0 r1 i
       then imap (λ j x, if in_range c0 c1 j then v else x) row
       else row) (rows_of a)).

End Np.

(** ** The block merger: [largest_uniform_square] *)

(** The test of the loop body at one candidate side. *)
Definition block_ok (grid : Np.ndarray Z) (covered : Np.ndarray bool)
    (row col : nat) (emoji_index : Z) (side : nat) : bool :=
  Np.all (Np.eq_scalar (Np.slice grid row (row + side) col (col + side)) emoji_index)
  && negb (Np.any (Np.slice covered row (row + side) col (col + side))).

(** [for side in range(n, 0, -1): if ok(side): return side]; [None] when the
    loop runs to its end without returning. *)
Fixpoint first_ok (ok : nat → bool) (n : nat) : option nat :=
  match n with
  | 0 => None
  | S n' => if ok n then Some n else first_ok ok n'
  end.

Definition max_possible (grid : Np.ndarray Z) (row col : nat) (max_side : Z) : Z :=
  Z.min (Z.min max_side (Z.of_nat (Np.shape0 grid) - Z.of_nat row))
        (Z.of_nat (Np.shape1 grid) - Z.of_nat col).

(** The [for] loop of [largest_uniform_square]. *)
Definition square_search (grid : Np.ndarray Z) (covered : Np.ndarray bool)
    (row col : nat) (emoji_index : Z) (max_side : Z) : option nat :=
  first_ok (block_ok grid covered row col emoji_index)
           (Z.to_nat (max_possible grid row col max_side)).

Definition largest_uniform_square (grid : Np.ndarray Z) (covered : Np.ndarray bool)
    (row col : nat) (emoji_index : Z) (max_side : Z) : nat :=
  match square_search grid covered row col emoji_index max_side with
  | Some side => side
  | None => 1 (* the trailing [return 1] *)
  end.

(** ** Images

    Pillow is an external collaborator.  A decoded picture is a [raster]
    (what [np.array(img)] reads); the images the program builds from it are
    kept as the sequence of Pillow calls that made them. *)

(** [np.array(img)] of a multi-band picture: [height] rows of [width] pixels
    of [bands] samples, each sample an 8-bit integer. *)
Record raster : Type := mk_raster {
  width : nat;
  height : nat;
  bands : nat;
  samples : list (list (list Z))
}.

Definition raster_wf (img : raster) : Prop :=
  length (samples img) = height img ∧
  Forall (λ row, length row = width img ∧
                 Forall (λ px, length px = bands img ∧
                               Forall (λ s, (0 ≤ s ≤ 255)%Z) px) row)
         (samples img).

Inductive image : Type :=
  | Decoded (r : raster)                               (* Image.open(..).convert(..) *)
  | Resized (src : image) (w h : Z)                    (* src.resize((w, h), LANCZOS) *)
  | Blank (w h : Z)                                    (* Image.new("RGB", (w, h)) *)
  | Pasted (canvas src : image) (x y : Z) (mask : image). (* canvas.paste(src, (x, y), mask) *)

(** [img.size]. *)
Fixpoint image_size (i : image) : Z * Z :=
  match i with
  | Decoded r => (Z.of_nat (width r), Z.of_nat (height r))
  | Resized _ w h => (w, h)
  | Blank w h => (w, h)
  | Pasted canvas _ _ _ _ => image_size canvas
  end.

(** [l[i]] on a Python list, with an index that may be negative. *)
Definition list_getitem {A} (l : list A) (i : Z) : res A :=
  of_option IndexError
    (if (0 <=? i)%Z then l !! Z.to_nat i
     else if (0 <=? Z.of_nat (length l) + i)%Z
          then l !! Z.to_nat (Z.of_nat (length l) + i)
          else None).

(** ** The merge-and-paste loop of [mosaic_image] *)

(** One block decided by the loop: anchor cell, palette index, side. *)
Record placement : Type := mk_placement {
  p_row : nat;
  p_col : nat;
  p_index : Z;
  p_side : nat
}.

(** The variables the loop mutates.  [plan] is a ghost variable: the code
    keeps no list of placements, it pastes each block as soon as it is
    decided; [plan] records the blocks in that order. *)
Record loop_state : Type := mk_state {
  covered : Np.ndarray bool;
  out : image;
  plan : list placement
}.

Section MosaicLoop.

Variable grid : Np.ndarray Z.
Variable palette_images : list image.
Variables size zoom max_emoji_block : Z.

(** The body of [while col < cols] at an uncovered cell (lines 105-114);
    it returns the new state and the new value of [col]. *)
Definition place_block (row col : nat) (st : loop_state) : res (loop_state * nat) :=
  emoji_index ← Np.getitem grid row col;
  let side := largest_uniform_square grid (covered st) row col emoji_index max_emoji_block in
  let covered' := Np.setslice (covered st) row (row + side) col (col + side) true in
  emoji ← list_getitem palette_images emoji_index;
  let target_size := (Z.of_nat side * size * zoom)%Z in
  let emoji :=
    if negb (side =? 1) || negb (zoom =? 1)%Z
    then Resized emoji target_size target_size
    else emoji in
  let out' :=
    Pasted (out st) emoji
           (Z.of_nat col * size * zoom)%Z (Z.of_nat row * size * zoom)%Z emoji in
  Ret (mk_state covered' out' (plan st ++ [mk_placement row col emoji_index side]),
       col + side).

(** [while col < cols: ...] of one row.  Every iteration consumes one unit
    of fuel. *)
Fixpoint scan_row (fuel : nat) (row col : nat) (st : loop_state) : res loop_state :=
  if negb (col <? Np.shape1 grid) then Ret st
  else match fuel with
       | 0 => OutOfFuel
       | S fuel' =>
           c ← Np.getitem (covered st) row col;
           if (c : bool) then scan_row fuel' row (col + 1) st
           else '(st', col') ← place_block row col st;
                scan_row fuel' row col' st'
       end.

(** [for row in range(rows): col = 0; while ...]. *)
Fixpoint scan_rows (rows_todo : list nat) (st : loop_state) : res loop_state :=
  match rows_todo with
  | [] => Ret st
  | row :: rest =>
      st' ← scan_row (Np.shape1 grid) row 0 st;
      scan_rows rest st'
  end.

(** Lines 94-114: the canvas, the coverage mask, and the double loop. *)
Definition mosaic_loop : res loop_state :=
  let rows := Np.shape0 grid in
  let cols := Np.shape1 grid in
  let out := Blank (Z.of_nat cols * size * zoom)%Z (Z.of_nat rows * size * zoom)%Z in
  let covered := Np.zeros rows cols in
  scan_rows (seq 0 rows) (mk_state covered out []).

End MosaicLoop.

(** ** numpy floating point

    The program computes colours and distances in numpy's binary floating
    point.  The development is parametric in that arithmetic: [Float F]
    lists the operations the program uses and the facts about them that the
    proofs need.  [F] stands for the finite values (no NaN): comparison is a
    strict weak order. *)

Class Float (F : Type) : Type := {
  of_int : Z → F;
  fadd : F → F → F;
  fsub : F → F → F;
  fmul : F → F → F;
  fdiv : F → F → F;
  fltb : F → F → bool;
  fltb_irrefl : ∀ x, fltb x x = false;
  fltb_trans : ∀ x y z, fltb x y = true → fltb y z = true → fltb x z = true;
  fltb_cotrans : ∀ x y z, fltb x y = true → fltb x z = true ∨ fltb z y = true;
  (** [a / 255.0 > 0] exactly when the 8-bit sample [a] is not zero *)
  alpha_positive : ∀ a : Z, (0 ≤ a ≤ 255)%Z →
    fltb (of_int 0) (fdiv (of_int a) (of_int 255)) = (0 <? a)%Z
}.

(** A colour, or a row of an array of shape [(n, 3)]. *)
Definition rgb (A : Type) : Type := A * A * A.

Definition red {A} (c : rgb A) : A := c.1.1.
Definition green {A} (c : rgb A) : A := c.1.2.
Definition blue {A} (c : rgb A) : A := c.2.

Definition rgb_map {A B} (f : A → B) (c : rgb A) : rgb B :=
  (f (red c), f (green c), f (blue c)).

(** [px[:3]] of one pixel; a missing sample reads as 0 (no sample is missing
    in a well-formed raster of at least three bands). *)
Definition first3 (px : list Z) : rgb Z :=
  (default 0%Z (px !! 0), default 0%Z (px !! 1), default 0%Z (px !! 2)).

(** [a.reshape(-1, 3)] of the flattened samples [l]. *)
Fixpoint triples {A} (l : list A) : option (list (rgb A)) :=
  match l with
  | [] => Some []
  | r :: g :: b :: l' => cons (r, g, b) <$> triples l'
  | _ => None
  end.

Definition reshape3 {A} (l : list A) : res (list (rgb A)) :=
  of_option ValueError (triples l).

(** [rows[mask]]: the rows selected by a boolean mask of the same shape. *)
Definition boolean_index {A} (rows : list (list A)) (mask : list (list bool)) : list A :=
  fst <$> List.filter snd (zip (concat rows) (concat mask)).

Section Quantizer.

Context {F : Type} `{Float F}.

(** [np.sum] of a short vector. *)
Definition np_sum (xs : list F) : F := foldl fadd (of_int 0) xs.

(** [xs.mean()]: the sum divided by the count. *)
Definition np_mean (xs : list F) : F :=
  fdiv (np_sum xs) (of_int (Z.of_nat (length xs))).

(** [a.mean(axis=0)] of an array of shape [(n, 3)]. *)
Definition mean_axis0 (a : list (rgb F)) : rgb F :=
  (np_mean (red <$> a), np_mean (green <$> a), np_mean (blue <$> a)).

(** Conversion of 8-bit samples to floating point. *)
Definition as_float (c : rgb Z) : rgb F := rgb_map of_int c.

Definition average_color (img : raster) : res (rgb F) :=
  let arr := samples img in
  if bands img =? 4 then
    let rgb := fmap (M := list) (fmap (M := list) first3) arr in
    let alpha :=
      fmap (M := list) (fmap (M := list)
        (λ px, fdiv (of_int (default 0%Z (px !! 3))) (of_int 255))) arr in
    let mask := fmap (M := list) (fmap (M := list) (λ a, fltb (of_int 0) a)) alpha in
    if negb (Np.any mask) then Ret (of_int 0, of_int 0, of_int 0)
    else
      let rgb := boolean_index rgb mask in
      Ret (mean_axis0 (as_float <$> rgb))
  else
    flat ← reshape3 (concat (concat arr));
    Ret (mean_axis0 (as_float <$> flat)).

(** [np.argmin]: the scan keeps the first strictly smaller value. *)
Fixpoint argmin_from (best_i : nat) (best : F) (i : nat) (xs : list F) : nat :=
  match xs with
  | [] => best_i
  | x :: xs' =>
      if fltb x best then argmin_from i x (S i) xs'
      else argmin_from best_i best (S i) xs'
  end.

Definition np_argmin (xs : list F) : res nat :=
  match xs with
  | [] => Raise ValueError
  | x :: xs' => Ret (argmin_from 0 x 1 xs')
  end.

Definition square (x : F) : F := fmul x x.

(** One entry of [np.sum((palette_colors - color) ** 2, axis=1)]. *)
Definition distance (color p : rgb F) : F :=
  np_sum [square (fsub (red p) (red color));
          square (fsub (green p) (green color));
          square (fsub (blue p) (blue color))].

Definition nearest_emoji_index (color : rgb F) (palette_colors : list (rgb F)) : res nat :=
  let distances := distance color <$> palette_colors in
  np_argmin distances.

(** [math.ceil(n / size)] for a non-negative [n].  The quotient is taken in
    double precision by the program; below [2^53] its ceiling is the exact
    one, which is what the model computes. *)
Definition ceil_div (n : nat) (size : Z) : res Z :=
  if (size =? 0)%Z then Raise ZeroDivisionError
  else Ret (- ((- Z.of_nat n) / size))%Z.

(** [pixels[top:bottom, left:right]] of the region at grid cell [(y, x)].
    The bounds are never negative where the loops of [build_emoji_grid] run. *)
Definition region (img : raster) (size : Z) (y x : nat) : list (list (list Z)) :=
  let top := (Z.of_nat y * size)%Z in
  let bottom := Z.min (top + size) (Z.of_nat (height img)) in
  let left := (Z.of_nat x * size)%Z in
  let right := Z.min (left + size) (Z.of_nat (width img)) in
  Np.slice2 (samples img) (Z.to_nat top) (Z.to_nat bottom) (Z.to_nat left) (Z.to_nat right).

(** The body of the inner loop of [build_emoji_grid]: the value stored at
    [grid[y, x]]. *)
Definition grid_cell (img : raster) (size : Z) (palette_colors : list (rgb F))
    (y x : nat) : res Z :=
  let tile_pixels := region img size y x in
  flat ← reshape3 (concat (concat tile_pixels));
  let color := mean_axis0 (as_float <$> flat) in
  Z.of_nat <$> nearest_emoji_index color palette_colors.

Definition build_emoji_grid (img : raster) (size : Z) (palette_colors : list (rgb F))
    : res (Np.ndarray Z) :=
  cols ← ceil_div (width img) size;
  rows ← ceil_div (height img) size;
  (* np.empty((rows, cols)) refuses a negative dimension *)
  if (rows <? 0)%Z || (cols <? 0)%Z then Raise ValueError
  else
    cells ← mapM (λ y, mapM (λ x, grid_cell img size palette_colors y x)
                            (seq 0 (Z.to_nat cols)))
                 (seq 0 (Z.to_nat rows));
    Ret (Np.mk_ndarray (Z.to_nat rows) (Z.to_nat cols) cells).

(** The tile directory: file name to content.  The content is the picture
    that [Image.open(path).convert("RGBA")] yields, or [None] for a file
    Pillow cannot read. *)
Definition directory : Type := gmap string (option raster).

(** The pattern [*.png] of [Path.glob]: any name that ends in [.png]. *)
Definition is_png (name : string) : bool :=
  let n := String.length name in
  (4 <=? n) && String.eqb (String.substring (n - 4) 4 name) ".png".

Definition glob_png (emojis_dir : directory) : list string :=
  List.filter is_png (elements (dom emojis_dir)).

(** The order of [sorted] on paths of one directory: the file names,
    compared character by character. *)
Definition path_le (a b : string) : Prop := String.leb a b.

Definition sorted (paths : list string) : list string := merge_sort path_le paths.

Definition open_rgba (emojis_dir : directory) (path : string) : res raster :=
  file ← of_option FileNotFoundError (emojis_dir !! path);
  of_option UnidentifiedImageError file.

(** The body of the loop of [build_emoji_palette]. *)
Definition load_tile (emojis_dir : directory) (size : Z) (path : string)
    : res (rgb F * image) :=
  img ← open_rgba emojis_dir path;
  color ← average_color img;
  let resized := Resized (Decoded img) size size in
  Ret (color, resized).

Definition build_emoji_palette (emojis_dir : directory) (size : Z)
    : res (list (rgb F) * list image) :=
  tiles ← mapM (load_tile emojis_dir size) (sorted (glob_png emojis_dir));
  Ret (tiles.*1, tiles.*2).

(** Line 145 of [main]: the command line clamps the block side before it
    reaches [mosaic_image]. *)
Definition clamp_max_emoji_block (max_emoji_block : Z) : Z := Z.max 1 max_emoji_block.

Definition mosaic_image (img : raster) (palette_colors : list (rgb F))
    (palette_images : list image) (size zoom max_emoji_block : Z) : res image :=
  grid ← build_emoji_grid img size palette_colors;
  st ← mosaic_loop grid palette_images size zoom max_emoji_block;
  Ret (out st).

(** Lines 119-122.  [frames] gives, for a path, the picture that
    [Image.open(path).convert("RGB")] yields ([None] for a file Pillow cannot
    read); [written] collects what [save] has written.  No file written
    here is read back by the program. *)
Definition open_rgb (frames : gmap string (option raster)) (path : string) : res raster :=
  file ← of_option FileNotFoundError (frames !! path);
  of_option UnidentifiedImageError file.

Definition mosaic_frame (frames : gmap string (option raster)) (frame_path : string)
    (palette_colors : list (rgb F)) (palette_images : list image)
    (size zoom max_emoji_block : Z) (out_path : string)
    (written : gmap string image) : res (gmap string image) :=
  img ← open_rgb frames frame_path;
  out ← mosaic_image img palette_colors palette_images size zoom max_emoji_block;
  Ret (<[out_path := out]> written).

End Quantizer.

(** ** Strings and paths

    The string methods and the [pathlib] properties that [main] uses.
    [suffix] and [stem] are those of CPython up to 3.12. *)

(** [s[i:]] and [s[:i]] for an index [0 ≤ i]. *)
Definition str_from (i : nat) (s : string) : string :=
  String.substring i (String.length s - i) s.

Definition str_upto (i : nat) (s : string) : string := String.substring 0 i s.

(** [s.endswith(t)]. *)
Definition endswith (s t : string) : bool :=
  let n := String.length s in
  let m := String.length t in
  (m <=? n) && String.eqb (String.substring (n - m) m s) t.

(** The character [.]. *)
Definition dot : Ascii.ascii := Ascii.Ascii false true true true false true false false.

(** [s.rfind(".")], with [None] for -1. *)
Fixpoint rfind_dot (s : string) : option nat :=
  match s with
  | EmptyString => None
  | String c s' =>
      match rfind_dot s' with
      | Some i => Some (S i)
      | None => if Ascii.eqb c dot then Some 0 else None
      end
  end.

(** A path: the directory and the final component. *)
Record path : Type := mk_path {
  dirname : string;
  basename : string
}.

(** [str(p)]. *)
Definition path_str (p : path) : string := dirname p +:+ "/" +:+ basename p.

(** The index [i] of [suffix] and [stem], when [0 < i < len(name) - 1]. *)
Definition suffix_index (nm : string) : option nat :=
  match rfind_dot nm with
  | Some i => if (0 <? i) && (i <? String.length nm - 1) then Some i else None
  | None => None
  end.

(** [PurePath.suffix] of a path whose name is [nm]. *)
Definition suffix (nm : string) : string :=
  match suffix_index nm with
  | Some i => str_from i nm
  | None => ""
  end.

(** [PurePath.stem]. *)
Definition stem (nm : string) : string :=
  match suffix_index nm with
  | Some i => str_upto i nm
  | None => nm
  end.

(** [p.with_name(new)]; a path without a name has none to replace. *)
Definition with_name (p : path) (new : string) : res path :=
  if String.eqb (basename p) "" then Raise ValueError
  else Ret (mk_path (dirname p) new).

(** ** The command line: [main] *)

Section Main.

Context {F : Type} `{Float F}.

Variable emojis_dir : directory.
Variable frames : gmap string (option raster).

(** Lines 144-160: the palette, the clamp and the still-picture branch.
    [image_path] is the resolved path of [--image]; [out] is [--out]. *)
Definition main_image (image_path : path) (size zoom max_emoji_block : Z)
    (out : option string) (written : gmap string image) : res (gmap string image) :=
  '(palette_colors, palette_images) ← build_emoji_palette emojis_dir size;
  let max_emoji_block := Z.max 1 max_emoji_block in
  out_path ←
    match out with
    | Some o =>
        if String.eqb o "" (* [args.out or ...]: the empty string is false *)
        then path_str <$> with_name image_path (stem (basename image_path) +:+ "-mosaic.png")
        else Ret o
    | None =>
        path_str <$> with_name image_path (stem (basename image_path) +:+ "-mosaic.png")
    end;
  mosaic_frame frames (path_str image_path) palette_colors palette_images
               size zoom max_emoji_block out_path written.

(** Lines 175-178: the loop over the frames that are left after the filter
    of line 173. *)
Fixpoint frames_loop (tmp_dir : string) (palette_colors : list (rgb F))
    (palette_images : list image) (size zoom max_emoji_block : Z)
    (todo : list string) (written : gmap string image) : res (gmap string image) :=
  match todo with
  | [] => Ret written
  | frame :: rest =>
      let mosaic_out := mk_path tmp_dir (stem frame +:+ "-mosaic.png") in
      written' ← mosaic_frame frames (path_str (mk_path tmp_dir frame))
                   palette_colors palette_images size zoom max_emoji_block
                   (path_str mosaic_out) written;
      frames_loop tmp_dir palette_colors palette_images size zoom max_emoji_block
                  rest written'
  end.

(** Lines 173-178.  [listing] holds the names that the sorted [glob] of line
    172 found in [tmp_dir]. *)
Definition mosaic_frames (tmp_dir : string) (listing : list string)
    (palette_colors : list (rgb F)) (palette_images : list image)
    (size zoom max_emoji_block : Z) (written : gmap string image)
    : res (gmap string image) :=
  let todo := List.filter (λ f, negb (endswith f "-mosaic.png")) listing in
  frames_loop tmp_dir palette_colors palette_images size zoom max_emoji_block
              todo written.

End Main.

(** ** The web front end ([webapp/app.py])

    The outcome of a collaborator the program waits for: a subprocess that
    exits with a return code, a Pillow call that returns; or the exception
    the call raised instead. *)
Inductive ran (A : Type) : Type :=
  | Exited (a : A)
  | Threw (e : exn).
Arguments Exited {A} a.
Arguments Threw {A} e.

(** [class Job].  [job_created_at] is the clock reading of the constructor. *)
Record Job : Type := mk_Job {
  job_id : string;
  job_input_path : path;
  job_fps : Z;
  job_size : Z;
  job_out_format : string;
  job_media_kind : string;
  job_status : string;
  job_progress : Z;
  job_message : string;
  job_output_path : option string;
  job_created_at : Z
}.

(** [Job.__init__]; [uuid_hex] and [now] are what [uuid.uuid4().hex] and
    [time.time()] return. *)
Definition Job_init (uuid_hex : string) (now : Z) (input_path : path) (fps size : Z)
    (out_format media_kind : string) : Job :=
  mk_Job uuid_hex input_path fps size out_format media_kind "queued" 0 "" None now.

(** Assignments to the attributes that [run_job] changes. *)
Definition set_status (j : Job) (v : string) : Job :=
  mk_Job (job_id j) (job_input_path j) (job_fps j) (job_size j) (job_out_format j)
         (job_media_kind j) v (job_progress j) (job_message j) (job_output_path j)
         (job_created_at j).

Definition set_progress (j : Job) (v : Z) : Job :=
  mk_Job (job_id j) (job_input_path j) (job_fps j) (job_size j) (job_out_format j)
         (job_media_kind j) (job_status j) v (job_message j) (job_output_path j)
         (job_created_at j).

Definition set_message (j : Job) (v : string) : Job :=
  mk_Job (job_id j) (job_input_path j) (job_fps j) (job_size j) (job_out_format j)
         (job_media_kind j) (job_status j) (job_progress j) v (job_output_path j)
         (job_created_at j).

Definition set_output_path (j : Job) (v : string) : Job :=
  mk_Job (job_id j) (job_input_path j) (job_fps j) (job_size j) (job_out_format j)
         (job_media_kind j) (job_status j) (job_progress j) (job_message j) (Some v)
         (job_created_at j).

(** [x in (a, b, ...)] on strings. *)
Definition str_in (x : string) (l : list string) : bool :=
  existsb (String.eqb x) l.

(** [clamp_int].  [value] is [None] when the form lacks the field
    ([int(None)] raises [TypeError]); [int_of_str] is Python's [int] on a
    string, [None] when it raises [ValueError]. *)
Definition clamp_int (int_of_str : string → option Z) (value : option string)
    (minimum maximum default : Z) : Z :=
  match value ≫= int_of_str with
  | None => default
  | Some value => Z.max minimum (Z.min maximum value)
  end.

(** What the collaborators of one [run_job] call did: the mosaic script, the
    JPEG conversion, and the two GIF passes of ffmpeg. *)
Record outcomes : Type := mk_outcomes {
  script : ran Z;
  jpeg : ran ();
  palettegen : ran Z;
  paletteuse : ran Z
}.

(** The last three assignments of [run_job]. *)
Definition job_done (j : Job) : Job :=
  set_message (set_progress (set_status j "done") 100) "Done".

(** [run_job]: the job as the call leaves it, and the exception that
    escaped, if any. *)
Definition run_job (job : Job) (o : outcomes) : Job * option exn :=
  let job := set_message (set_progress (set_status job "processing") 10) "Starting..." in
  match with_name (job_input_path job) "output.mp4",
        with_name (job_input_path job) "output.gif",
        with_name (job_input_path job) "output.png",
        with_name (job_input_path job) "output.jpg" with
  | Ret output_mp4, Ret output_gif, Ret output_png, Ret output_jpg =>
      let job := set_message (set_progress job 30) "Rendering mosaic..." in
      if String.eqb (job_media_kind job) "image" then
        match script o with
        | Threw e => (job, Some e)
        | Exited returncode =>
            if negb (returncode =? 0)%Z
            then (set_message (set_status job "error") "Image processing failed", None)
            else
              let job := set_progress job 85 in
              if str_in (job_out_format job) ["jpg"; "jpeg"] then
                match jpeg o with
                | Threw e => (job, Some e)
                | Exited _ => (job_done (set_output_path job (path_str output_jpg)), None)
                end
              else (job_done (set_output_path job (path_str output_png)), None)
        end
      else
        match script o with
        | Threw e => (job, Some e)
        | Exited returncode =>
            if negb (returncode =? 0)%Z
            then (set_message (set_status job "error") "Video processing failed", None)
            else if String.eqb (job_out_format job) "gif" then
              let job := set_message (set_progress job 80) "Encoding GIF..." in
              match with_name (job_input_path job) "palette.png" with
              | Ret palette =>
                  match palettegen o with
                  | Threw e => (job, Some e)
                  | Exited _ =>
                      match paletteuse o with
                      | Threw e => (job, Some e)
                      | Exited returncode =>
                          if negb (returncode =? 0)%Z
                          then (set_message (set_status job "error")
                                            "GIF encoding failed", None)
                          else (job_done (set_output_path job (path_str output_gif)),
                                None)
                      end
                  end
              | Raise e => (job, Some e)
              | OutOfFuel => (job, None)
              end
            else
              let job := set_message (set_progress job 80) "Encoding MP4..." in
              (job_done (set_output_path job (path_str output_mp4)), None)
        end
  | Raise e, _, _, _ | _, Raise e, _, _ | _, _, Raise e, _ | _, _, _, Raise e =>
      (job, Some e)
  | _, _, _, _ => (job, None)
  end.

(** What a request handler answers. *)
Inductive response : Type :=
  | JsonError (error : string) (code : Z)
  | JsonStatus (status : string) (progress : Z) (message : string)
  | JsonAccepted (job_id media_kind : string)
  | SendFile (file : option string) (download_name : string).

(** [download] for a job found (or not) under the requested id. *)
Definition download (job : option Job) : response :=
  match job with
  | None => JsonError "Not ready" 400
  | Some job =>
      if negb (String.eqb (job_status job) "done") then JsonError "Not ready" 400
      else
        let filename :=
          if String.eqb (job_media_kind job) "image" then
            let ext := if str_in (job_out_format job) ["jpg"; "jpeg"]
                       then "jpg" else "png" in
            "emojisaic." +:+ ext
          else if String.eqb (job_out_format job) "gif" then "emojisaic.gif"
          else "emojisaic.mp4" in
        SendFile (job_output_path job) filename
  end.

(** [status]. *)
Definition status (job : option Job) : response :=
  match job with
  | None => JsonError "Not found" 404
  | Some job => JsonStatus (job_status job) (job_progress job) (job_message job)
  end.

(** *** Durations

    [parse_duration_seconds] on text of 7-bit characters.  The regular
    expression has one way to match at a given position: each [\d+] takes
    all the digits there are, because what must follow is not a digit. *)

Definition is_digit (c : Ascii.ascii) : bool :=
  let n := Ascii.nat_of_ascii c in (48 <=? n) && (n <=? 57).

(** [\s] on 7-bit characters. *)
Definition is_space (c : Ascii.ascii) : bool :=
  let n := Ascii.nat_of_ascii c in
  ((9 <=? n) && (n <=? 13)) || ((28 <=? n) && (n <=? 32)).

(** The digits at the start of [s], and what follows them. *)
Fixpoint span_digits (s : string) : string * string :=
  match s with
  | String c s' =>
      if is_digit c
      then let '(d, rest) := span_digits s' in (String c d, rest)
      else ("", s)
  | EmptyString => ("", "")
  end.

(** [c] followed by one or more digits, at the start of [s]. *)
Definition sep_digits (c : Ascii.ascii) (s : string) : option (string * string) :=
  match s with
  | String c' s' =>
      if Ascii.eqb c' c then
        let '(d, rest) := span_digits s' in
        if String.eqb d "" then None else Some (d, rest)
      else None
  | EmptyString => None
  end.

Definition colon : Ascii.ascii := Ascii.Ascii false true false true true true false false.

(** The three groups of the expression, matched at the start of [s]. *)
Definition match_duration_here (s : string) : option (string * string * string) :=
  if String.prefix "Duration:" s then
    match str_from 9 s with
    | String c s1 =>
        if is_space c then
          let '(hours, r1) := span_digits s1 in
          if String.eqb hours "" then None
          else
            '(minutes, r2) ← sep_digits colon r1;
            '(seconds, r3) ← sep_digits colon r2;
            match sep_digits dot r3 with
            | Some (fraction, _) => Some (hours, minutes, seconds +:+ "." +:+ fraction)
            | None => Some (hours, minutes, seconds)
            end
        else None
    | EmptyString => None
    end
  else None.

(** [re.search]: the match at the leftmost position that has one. *)
Fixpoint search_duration (s : string) : option (string * string * string) :=
  match match_duration_here s with
  | Some groups => Some groups
  | None =>
      match s with
      | String _ s' => search_duration s'
      | EmptyString => None
      end
  end.

(** [int] of a string of digits. *)
Definition int_of_digits (d : string) : Z :=
  fold_left (λ acc c, (10 * acc + (Z.of_nat (Ascii.nat_of_ascii c) - 48))%Z)
            (String.list_ascii_of_string d) 0%Z.

Section Web.

Context {F : Type} `{Float F}.

(** Python built-ins taken as they are: [float] on the text of the seconds
    group, [int] on a form value, [str.lower], and the path that
    [JOBS_DIR / uuid / filename] denotes. *)
Variable float_of_str : string → F.
Variable int_of_str : string → option Z.
Variable lower : string → string.
Variable upload_path : string → string → path.

Definition parse_duration_seconds (ffmpeg_output : string) : F :=
  match search_duration ffmpeg_output with
  | None => of_int 0
  | Some (hours, minutes, seconds) =>
      fadd (of_int (int_of_digits hours * 3600 + int_of_digits minutes * 60))
           (float_of_str seconds)
  end.

Definition VIDEO_EXTENSIONS : list string :=
  [".mp4"; ".mov"; ".m4v"; ".avi"; ".mkv"; ".webm"].

Definition IMAGE_EXTENSIONS : list string := [".png"; ".jpg"; ".jpeg"; ".webp"].

Definition detect_media_kind (input_path : path) (mime_type : string) : string :=
  let ext := lower (suffix (basename input_path)) in
  let mime_type := lower mime_type in
  if str_in ext IMAGE_EXTENSIONS || String.prefix "image/" mime_type then "image"
  else if str_in ext VIDEO_EXTENSIONS || String.prefix "video/" mime_type then "video"
  else "unknown".

(** An uploaded file of the request. *)
Record upload : Type := mk_upload {
  filename : string;
  mimetype : string
}.

Record request : Type := mk_request {
  files : gmap string upload;
  form : gmap string string
}.

(** The state of the application: the [Job] objects by reference, the
    dictionary [jobs] from ids to objects, the queue of objects waiting for
    the worker, and the uploads saved so far. *)
Record app : Type := mk_app {
  heap : list Job;
  jobs : gmap string nat;
  job_queue : list nat;
  uploads : list string
}.

(** [jobs.get(job_id)]. *)
Definition jobs_get (st : app) (id : string) : option Job :=
  jobs st !! id ≫= λ ref, heap st !! ref.

(** What the world supplies to one call of [process]: two uuids, the clock,
    the outcome of [media.save] and that of the ffmpeg run of
    [get_duration_seconds], with what it printed on stderr. *)
Record process_env : Type := mk_env {
  dir_uuid : string;
  job_uuid : string;
  now : Z;
  saved : ran ();
  ffmpeg_output : ran string
}.

(** [request.files.get("media") or request.files.get("video")]: an upload
    without a file name counts as false. *)
Definition requested_media (req : request) : option upload :=
  match files req !! "media" with
  | Some m => if String.eqb (filename m) "" then files req !! "video" else Some m
  | None => files req !! "video"
  end.

(** [process]: the answer, the exception that escaped (if any) and the new
    state. *)
Definition process (req : request) (env : process_env) (st : app)
    : (response + exn) * app :=
  match requested_media req with
  | None => (inl (JsonError "Missing file" 400), st)
  | Some media =>
      if String.eqb (filename media) "" then (inl (JsonError "No file selected" 400), st)
      else
        let fps := clamp_int int_of_str (form req !! "fps") 1 30 8 in
        let size := clamp_int int_of_str (form req !! "size") 4 48 12 in
        let input_path := upload_path (dir_uuid env) (filename media) in
        match saved env with
        | Threw e => (inr e, st)
        | Exited _ =>
            let st := mk_app (heap st) (jobs st) (job_queue st)
                             (uploads st ++ [path_str input_path]) in
            let media_kind := detect_media_kind input_path (mimetype media) in
            if String.eqb media_kind "unknown" then
              (inl (JsonError "Unsupported file type. Use video or image files." 400), st)
            else
              let checked : (response + exn) + string :=
                if String.eqb media_kind "video" then
                  let out_format := lower (default "mp4" (form req !! "format")) in
                  if negb (str_in out_format ["mp4"; "gif"])
                  then inl (inl (JsonError "Invalid format for video" 400))
                  else
                    match ffmpeg_output env with
                    | Threw e => inl (inr e)
                    | Exited output =>
                        let duration := parse_duration_seconds output in
                        if fltb (of_int 15) duration
                        then inl (inl (JsonError "Video must be 15 seconds or less" 400))
                        else inr out_format
                    end
                else
                  let out_format := lower (default "png" (form req !! "format")) in
                  if negb (str_in out_format ["png"; "jpg"; "jpeg"])
                  then inl (inl (JsonError "Invalid format for image" 400))
                  else inr out_format in
              match checked with
              | inl answer => (answer, st)
              | inr out_format =>
                  let job := Job_init (job_uuid env) (now env) input_path fps size
                                      out_format media_kind in
                  let ref := length (heap st) in
                  (inl (JsonAccepted (job_id job) media_kind),
                   mk_app (heap st ++ [job]) (<[job_id job := ref]> (jobs st))
                          (job_queue st ++ [ref]) (uploads st))
              end
        end
  end.

(** One turn of [worker]: it takes the job at the head of the queue and runs
    it; [None] while the queue is empty.  An exception that escapes
    [run_job] ends the worker. *)
Definition worker_turn (o : outcomes) (st : app) : option (app * option exn) :=
  match job_queue st with
  | [] => None
  | ref :: rest =>
      match heap st !! ref with
      | None => None
      | Some job =>
          let '(job', e) := run_job job o in
          Some (mk_app (<[ref := job']> (heap st)) (jobs st) rest (uploads st), e)
      end
  end.

(** [get_palette_for_size]: the answer and the cache afterwards.  The lock
    makes the body atomic; [emojis_dir] is the content of [EMOJIS_DIR] at the
    time of the call. *)
Definition get_palette_for_size (emojis_dir : directory) (size : Z)
    (palette_cache : gmap Z (list (rgb F) * list image))
    : res (list (rgb F) * list image) * gmap Z (list (rgb F) * list image) :=
  match palette_cache !! size with
  | Some cached => (Ret cached, palette_cache)
  | None =>
      match build_emoji_palette emojis_dir size with
      | Ret cached => (Ret cached, <[size := cached]> palette_cache)
      | failure => (failure, palette_cache)
      end
  end.

End Web.

(** ** What the specification says, in its own terms *)

(** The cell [(r, c)] lies in the square footprint of placement [p]. *)
Definition footprint (p : placement) (r c : nat) : bool :=
  Np.in_range (p_row p) (p_row p + p_side p) r
  && Np.in_range (p_col p) (p_col p + p_side p) c.

(** The number of placements of a plan that write cell [(r, c)]. *)
Definition writers (pl : list placement) (r c : nat) : nat :=
  length (List.filter (λ p, footprint p r c) pl).

(** The footprint of [p] lies inside an array of shape [rows × cols]. *)
Definition inside (rows cols : nat) (p : placement) : Prop :=
  p_row p + p_side p ≤ rows ∧ p_col p + p_side p ≤ cols.

(** Every cell of the [side × side] block anchored at [(row, col)] holds
    [v] and is not covered yet. *)
Definition uniform_uncovered (grid : Np.ndarray Z) (covered : Np.ndarray bool)
    (row col : nat) (v : Z) (side : nat) : Prop :=
  ∀ r c, row ≤ r < row + side → col ≤ c < col + side →
    Np.cell grid r c = Some v ∧ Np.cell covered r c = Some false.

(** The sides from [n] down to 1, in the order the search tries them. *)
Definition candidates (n : nat) : list nat := reverse (seq 1 n).

(** The cell [(r, c)] lies in the block of rows [[r0, r1)] and columns
    [[c0, c1)]. *)
Definition in_block (r0 r1 c0 c1 r c : nat) : bool :=
  Np.in_range r0 r1 r && Np.in_range c0 c1 c.

(** The sequence of [paste] calls that built a canvas, oldest first, and the
    image the first of them was applied to. *)
Fixpoint pastes (i : image) : list (image * (Z * Z) * image) :=
  match i with
  | Pasted canvas src x y mask => pastes canvas ++ [(src, (x, y), mask)]
  | _ => []
  end.

Fixpoint canvas_base (i : image) : image :=
  match i with
  | Pasted canvas _ _ _ _ => canvas_base canvas
  | _ => i
  end.

(** The tile the loop pastes for a block of side [side] cut from palette
    image [e], as line 111 decides it. *)
Definition pasted_tile (size zoom : Z) (e : image) (side : nat) : image :=
  if negb (side =? 1) || negb (zoom =? 1)%Z
  then Resized e (Z.of_nat side * size * zoom) (Z.of_nat side * size * zoom)
  else e.

(** The [paste] call that belongs to a placement. *)
Definition paste_of (palette_images : list image) (size zoom : Z) (p : placement)
    (call : image * (Z * Z) * image) : Prop :=
  ∃ e, palette_images !! Z.to_nat (p_index p) = Some e ∧
       call = (pasted_tile size zoom e (p_side p),
               (Z.of_nat (p_col p) * size * zoom, Z.of_nat (p_row p) * size * zoom)%Z,
               pasted_tile size zoom e (p_side p)).

(** What holds of every placement the loop emits. *)
Definition good_placement (grid : Np.ndarray Z) (max_side : Z) (p : placement) : Prop :=
  1 ≤ p_side p ∧
  inside (Np.shape0 grid) (Np.shape1 grid) p ∧
  (Z.of_nat (p_side p) ≤ Z.max 1 max_side)%Z ∧
  ∀ r c, footprint p r c = true → Np.cell grid r c = Some (p_index p).

(** 1 for [true], 0 for [false]. *)
Definition indicator (b : bool) : nat := if b then 1 else 0.

(** The sum of [f r c] over the cells of a [rows × cols] grid. *)
Definition sum_cells (rows cols : nat) (f : nat → nat → nat) : nat :=
  sum_list_with (λ r, sum_list_with (f r) (seq 0 cols)) (seq 0 rows).

(** Every value of the grid is an index into a palette of [n] tiles. *)
Definition indices_below (n : nat) (grid : Np.ndarray Z) : Prop :=
  Forall (Forall (λ v, (0 ≤ v < Z.of_nat n)%Z)) (Np.rows_of grid).

(** The footprints of [pl] partition the cells of a [rows × cols] grid. *)
Definition partitions (rows cols : nat) (pl : list placement) : Prop :=
  (∀ r c, r < rows → c < cols → writers pl r c = 1) ∧
  Forall (inside rows cols) pl.

(** The coverage mask is all true. *)
Definition all_covered (rows cols : nat) (covered : Np.ndarray bool) : Prop :=
  ∀ r c, r < rows → c < cols → Np.cell covered r c = Some true.

(** [x < y] on rationals, as a boolean. *)
Definition Qltb (x y : Q) : bool :=
  (Qnum x * Z.pos (Qden y) <? Qnum y * Z.pos (Qden x))%Z.

(** The pixels of a picture, row by row. *)
Definition pixels (img : raster) : list (list Z) := concat (samples img).

(** The alpha sample of an RGBA pixel. *)
Definition alpha_of (px : list Z) : Z := default 0%Z (px !! 3).

(** The pixels whose alpha is strictly greater than zero. *)
Definition opaque_pixels (img : raster) : list (list Z) :=
  List.filter (λ px, (0 <? alpha_of px)%Z) (pixels img).

(** The pixel at [(py, px)]. *)
Definition pixel_at (img : raster) (py px : nat) : list Z :=
  default [] (samples img !! py ≫= λ row, row !! px).

(** The pixels of the region of cell [(y, x)] for tile size [S]: the
    [S × S] block at [(y * S, x * S)], clipped to the picture, row by row. *)
Definition region_pixels (img : raster) (S : nat) (y x : nat) : list (list Z) :=
  let top := y * S in
  let bottom := (top + S) `min` height img in
  let left := x * S in
  let right := (left + S) `min` width img in
  concat ((λ py, (λ px, pixel_at img py px) <$> seq left (right - left))
          <$> seq top (bottom - top)).

(** The tile the specification pastes for a block of side [side]: resized to
    [side * S * zoom] exactly when [side * zoom ≠ 1]. *)
Definition spec_tile (size zoom : Z) (e : image) (side : nat) : image :=
  if decide ((Z.of_nat side * zoom)%Z = 1%Z) then e
  else Resized e (Z.of_nat side * size * zoom) (Z.of_nat side * size * zoom).

(** The [paste] call the specification prescribes for a placement: palette
    tile [v] at [(c * S * zoom, r * S * zoom)], masked by itself. *)
Definition spec_paste (palette_images : list image) (size zoom : Z) (p : placement)
    (call : image * (Z * Z) * image) : Prop :=
  ∃ e, palette_images !! Z.to_nat (p_index p) = Some e ∧
       call = (spec_tile size zoom e (p_side p),
               (Z.of_nat (p_col p) * size * zoom, Z.of_nat (p_row p) * size * zoom)%Z,
               spec_tile size zoom e (p_side p)).

Section SpecColours.

Context {F : Type} `{Float F}.

(** The representative colour as the specification words it. *)
Definition mean_color (pxs : list (list Z)) : rgb F :=
  mean_axis0 (as_float <$> (first3 <$> pxs)).

Definition black : rgb F := (of_int 0, of_int 0, of_int 0).

(** The index the specification assigns to cell [(y, x)]. *)
Definition quantized (img : raster) (size : Z) (palette_colors : list (rgb F))
    (y x : nat) : nat :=
  match nearest_emoji_index
          (mean_color (region_pixels img (Z.to_nat size) y x)) palette_colors with
  | Ret i => i
  | _ => 0
  end.

(** The representative colour of an RGBA tile, in the specification's
    words: the mean over the opaque pixels, black when there is none. *)
Definition representative_color (r : raster) : rgb F :=
  match opaque_pixels r with
  | [] => black
  | _ => mean_color (opaque_pixels r)
  end.

End SpecColours.

(** ** Example data *)

(** A 3 × 4 grid with two 2 × 2 blocks in its upper rows. *)
Definition example_grid : Np.ndarray Z :=
  Np.mk_ndarray 3 4 [[1; 1; 2; 2]; [1; 1; 2; 2]; [0; 1; 1; 1]]%Z.

(** A palette of three render images. *)
Definition example_tiles : list image := [Blank 8 8; Blank 8 8; Blank 8 8].

(** A coverage mask of the same shape with one covered cell. *)
Definition example_mask : Np.ndarray bool :=
  Np.mk_ndarray 3 4 [[false; false; false; false];
                     [false; false; false; true];
                     [false; false; false; false]].

(** The two-tile palette of the specification's tests. *)
Definition black_and_white : list (rgb Q) :=
  [(inject_Z 0, inject_Z 0, inject_Z 0); (inject_Z 255, inject_Z 255, inject_Z 255)].

(** The colour at equal distance from black and white. *)
Definition mid_grey : rgb Q := (255 # 2, 255 # 2, 255 # 2).

(** A tile of two pixels: one opaque, one fully transparent. *)
Definition example_tile : raster :=
  mk_raster 2 1 4 [[[200; 100; 0; 255]; [9; 9; 9; 0]]]%Z.

(** A tile without any opaque pixel. *)
Definition transparent_tile : raster :=
  mk_raster 2 1 4 [[[50; 60; 70; 0]; [9; 9; 9; 0]]]%Z.

(** An RGB picture of 3 × 2 pixels: dark on the left, light on the right. *)
Definition example_picture : raster :=
  mk_raster 3 2 3 [[[0; 0; 0]; [10; 10; 10]; [250; 250; 250]];
                   [[20; 20; 20]; [30; 30; 30]; [240; 240; 240]]]%Z.

(** Render images for [black_and_white]. *)
Definition two_tiles : list image := [Blank 2 2; Blank 2 2].

(** A tile directory with two PNG tiles, a JPEG and a text file. *)
Definition example_dir : gmap string (option raster) :=
  <["b.png" := Some example_tile]>
    (<["notes.txt" := None]>
       (<["a.png" := Some transparent_tile]>
          (<["c.jpg" := Some example_tile]> ∅))).

(** The PNG files of [example_dir] alone. *)
Definition png_only_dir : gmap string (option raster) :=
  <["a.png" := Some transparent_tile]> (<["b.png" := Some example_tile]> ∅).

(** A directory that holds files, none of them named [*.png]. *)
Definition no_png_dir : gmap string (option raster) :=
  <["readme.txt" := None]> (<["tile.jpg" := Some example_tile]> ∅).

(** A tile directory with one unreadable [*.png] file. *)
Definition broken_dir : gmap string (option raster) :=
  <["bad.png" := None]> (<["a.png" := Some transparent_tile]> ∅).

(** A frame directory with one readable frame. *)
Definition example_frames : gmap string (option raster) :=
  <["frame.png" := Some example_picture]> ∅.

(** A still picture on disk. *)
Definition example_stills : gmap string (option raster) :=
  <["pics/photo.png" := Some example_picture]> ∅.

(** Two extracted frames and a stale mosaic in the frame directory. *)
Definition example_clip : gmap string (option raster) :=
  <["tmp/clip-00001.png" := Some example_picture]>
    (<["tmp/clip-00002.png" := Some example_picture]>
       (<["tmp/clip-00001-mosaic.png" := None]> ∅)).

Definition example_listing : list string :=
  ["clip-00001-mosaic.png"; "clip-00001.png"; "clip-00002.png"].

(** ** Further specification-level definitions *)

(** The name of the file a finished job offers, by kind and format. *)
Definition output_name (j : Job) : string :=
  if String.eqb (job_media_kind j) "image" then
    if str_in (job_out_format j) ["jpg"; "jpeg"] then "output.jpg" else "output.png"
  else if String.eqb (job_out_format j) "gif" then "output.gif"
  else "output.mp4".

(** The return codes that decide whether a job succeeds: the script's and,
    for a GIF of a video, that of the second ffmpeg pass. *)
Definition job_succeeds (j : Job) (script_rc paletteuse_rc : Z) : bool :=
  (script_rc =? 0)%Z &&
  (if negb (String.eqb (job_media_kind j) "image")
      && String.eqb (job_out_format j) "gif"
   then (paletteuse_rc =? 0)%Z else true).

(** [t] occurs in [s]. *)
Fixpoint occurs (t s : string) : bool :=
  String.prefix t s ||
  match s with
  | String _ s' => occurs t s'
  | EmptyString => false
  end.

(** Every entry of the cache is what [build_emoji_palette] returns for its
    size on the directory [emojis_dir]. *)
Definition cache_coherent {F : Type} `{Float F} (emojis_dir : directory)
    (palette_cache : gmap Z (list (rgb F) * list image)) : Prop :=
  ∀ size cached, palette_cache !! size = Some cached →
    build_emoji_palette emojis_dir size = Ret cached.

(** Every reference held by the dictionary or the queue points to an
    object. *)
Definition refs_valid (st : app) : Prop :=
  (∀ id ref, jobs st !! id = Some ref → ref < length (heap st)) ∧
  Forall (λ ref, ref < length (heap st)) (job_queue st).

(** A job as [process] hands it to the queue. *)
Definition job_admissible (j : Job) : Prop :=
  (1 ≤ job_fps j ≤ 30)%Z ∧ (4 ≤ job_size j ≤ 48)%Z ∧
  job_status j = "queued" ∧ job_progress j = 0%Z ∧ job_output_path j = None ∧
  ((job_media_kind j = "image" ∧ job_out_format j ∈ ["png"; "jpg"; "jpeg"]) ∨
   (job_media_kind j = "video" ∧ job_out_format j ∈ ["mp4"; "gif"])).

(** Placement [p] is anchored before placement [q] in row-major order. *)
Definition anchor_before (p q : placement) : Prop :=
  p_row p < p_row q ∨ (p_row p = p_row q ∧ p_col p < p_col q).

(** The anchor of [p] lies before the scan position [(row, col)]. *)
Definition anchored_before (row col : nat) (p : placement) : Prop :=
  p_row p < row ∨ (p_row p = row ∧ p_col p < col).

(** What the merger decides, without the canvas. *)
Definition tiling (st : loop_state) : Np.ndarray bool * list placement :=
  (covered st, plan st).

(** The number of cells a plan writes, placement by placement. *)
Definition plan_area (pl : list placement) : nat :=
  sum_list_with (λ p, p_side p * p_side p) pl.

(** Two results agree: both return, with related values, or both raise
    the same exception. *)
Definition res_rel {A B} (R : A → B → Prop) (x : res A) (y : res B) : Prop :=
  match x, y with
  | Ret a, Ret b => R a b
  | Raise e, Raise e' => e = e'
  | OutOfFuel, OutOfFuel => True
  | _, _ => False
  end.

(** The state in which a run of the example ends. *)
Definition example_run : loop_state :=
  match mosaic_loop example_grid example_tiles 8 1 2 with
  | Ret st => st
  | _ => mk_state (Np.zeros 0 0) (Blank 0 0) []
  end.

(** The picture stored under a name of the tile directory. *)
Definition tile_of (emojis_dir : directory) (name : string) : raster :=
  default (mk_raster 0 0 4 []) (mjoin (emojis_dir !! name)).

(** Every [*.png] file of the directory is readable, as a well-formed
    picture of four bands. *)
Definition tiles_readable (emojis_dir : directory) : Prop :=
  ∀ name file, is_png name = true → emojis_dir !! name = Some file →
    ∃ r, file = Some r ∧ raster_wf r ∧ bands r = 4.

(** [d] is a numeral: one or more decimal digits. *)
Definition digits (d : string) : bool :=
  negb (String.eqb d "") && forallb is_digit (String.list_ascii_of_string d).

(** [s] does not start with a digit. *)
Definition no_digit_ahead (s : string) : bool :=
  match s with
  | String c _ => negb (is_digit c)
  | EmptyString => true
  end.

(** ** Array lemmas *)

Section ArrayFacts.

Context {A : Type}.
Implicit Types (a : Np.ndarray A) (rows : list (list A)).

Lemma cell_Some_lt a r c x :
  Np.wf a → Np.cell a r c = Some x → r < Np.shape0 a ∧ c < Np.shape1 a.
Proof.
  intros [Hlen Hall]. unfold Np.cell. intros Hc.
  destruct (Np.rows_of a !! r) as [row|] eqn:Hr; simpl in Hc; [|done].
  split.
  - rewrite <- Hlen. by eapply lookup_lt_Some.
  - rewrite Forall_lookup in Hall. rewrite <- (Hall _ _ Hr).
    by eapply lookup_lt_Some.
Qed.

Lemma cell_is_Some a r c :
  Np.wf a → r < Np.shape0 a → c < Np.shape1 a → is_Some (Np.cell a r c).
Proof.
  intros [Hlen Hall] Hr Hc. unfold Np.cell.
  destruct (lookup_lt_is_Some_2 (Np.rows_of a) r) as [row Hrow]; [lia|].
  rewrite Hrow. simpl. apply lookup_lt_is_Some_2.
  rewrite Forall_lookup in Hall. rewrite (Hall _ _ Hrow). done.
Qed.

Lemma slice1_lookup {B} (l : list B) start stop i :
  Np.slice1 start stop l !! i =
  if decide (i < stop - start) then l !! (start + i) else None.
Proof.
  unfold Np.slice1. case_decide.
  - rewrite lookup_take_lt by done. by rewrite lookup_drop.
  - apply lookup_take_ge. lia.
Qed.

Lemma slice2_lookup rows r0 r1 c0 c1 i j :
  Np.slice2 rows r0 r1 c0 c1 !! i ≫= (λ row, row !! j) =
  if decide (i < r1 - r0 ∧ j < c1 - c0)
  then rows !! (r0 + i) ≫= (λ row, row !! (c0 + j))
  else None.
Proof.
  unfold Np.slice2. rewrite list_lookup_fmap, slice1_lookup.
  case_decide as Hi.
  - destruct (rows !! (r0 + i)) as [row|]; simpl.
    + rewrite slice1_lookup. repeat case_decide; try done; lia.
    + by case_decide.
  - simpl. case_decide; [lia|done].
Qed.

Lemma forallb2_lookup (f : A → bool) (b : list (list A)) :
  forallb (forallb f) b = true ↔
  ∀ i j x, b !! i ≫= (λ row, row !! j) = Some x → f x = true.
Proof.
  rewrite forallb_forall. split.
  - intros Hall i j x Hx.
    destruct (b !! i) as [row|] eqn:Hrow; simpl in Hx; [|done].
    specialize (Hall row). rewrite forallb_forall in Hall.
    apply Hall.
    + apply list_elem_of_In. by eapply list_elem_of_lookup_2.
    + apply list_elem_of_In. by eapply list_elem_of_lookup_2.
  - intros Hall row Hrow. apply forallb_forall. intros x Hx.
    apply list_elem_of_In, list_elem_of_lookup_1 in Hrow as [i Hi].
    apply list_elem_of_In, list_elem_of_lookup_1 in Hx as [j Hj].
    apply (Hall i j). by rewrite Hi.
Qed.

Lemma existsb2_negb (f : A → bool) (b : list (list A)) :
  negb (existsb (existsb f) b) = forallb (forallb (λ x, negb (f x))) b.
Proof.
  induction b as [|row b IH]; simpl; [done|].
  rewrite negb_orb, IH. f_equal.
  induction row as [|x row IHrow]; simpl; [done|].
  by rewrite negb_orb, IHrow.
Qed.

Lemma existsb2_lookup (f : A → bool) (b : list (list A)) :
  existsb (existsb f) b = false ↔
  ∀ i j x, b !! i ≫= (λ row, row !! j) = Some x → f x = false.
Proof.
  rewrite <- negb_true_iff, existsb2_negb, forallb2_lookup.
  split; intros Hall i j x Hx; specialize (Hall i j x Hx); simpl in *.
  - by apply negb_true_iff.
  - by apply negb_true_iff.
Qed.

End ArrayFacts.

Lemma fmap2_lookup {A B} (f : A → B) (b : list (list A)) i j :
  fmap (M := list) (fmap (M := list) f) b !! i ≫= (λ row, row !! j) =
  f <$> (b !! i ≫= (λ row, row !! j)).
Proof.
  rewrite list_lookup_fmap. destruct (b !! i) as [row|]; simpl; [|done].
  apply list_lookup_fmap.
Qed.

Lemma slice_cell {A} (a : Np.ndarray A) r0 r1 c0 c1 i j :
  Np.slice a r0 r1 c0 c1 !! i ≫= (λ row, row !! j) =
  if decide (i < r1 - r0 ∧ j < c1 - c0) then Np.cell a (r0 + i) (c0 + j) else None.
Proof. apply slice2_lookup. Qed.

(** [np.all(block == v)] reads exactly the cells of the block that exist. *)
Lemma all_eq_scalar_spec (grid : Np.ndarray Z) r0 r1 c0 c1 v :
  Np.all (Np.eq_scalar (Np.slice grid r0 r1 c0 c1) v) = true ↔
  ∀ r c x, r0 ≤ r < r1 → c0 ≤ c < c1 → Np.cell grid r c = Some x → x = v.
Proof.
  unfold Np.all, Np.eq_scalar. rewrite forallb2_lookup. split.
  - intros Hall r c x Hr Hc Hx.
    specialize (Hall (r - r0) (c - c0) (Z.eqb x v)).
    rewrite fmap2_lookup, slice_cell in Hall.
    rewrite decide_True in Hall by lia.
    replace (r0 + (r - r0)) with r in Hall by lia.
    replace (c0 + (c - c0)) with c in Hall by lia.
    rewrite Hx in Hall. apply Z.eqb_eq. by apply Hall.
  - intros Hall i j b. rewrite fmap2_lookup, slice_cell.
    case_decide as Hij; [|done].
    destruct (Np.cell grid (r0 + i) (c0 + j)) as [x|] eqn:Hx; simpl; [|done].
    intros [= <-]. apply Z.eqb_eq. eapply Hall; [| |done]; lia.
Qed.

Lemma any_false_spec (covered : Np.ndarray bool) r0 r1 c0 c1 :
  Np.any (Np.slice covered r0 r1 c0 c1) = false ↔
  ∀ r c b, r0 ≤ r < r1 → c0 ≤ c < c1 → Np.cell covered r c = Some b → b = false.
Proof.
  unfold Np.any. rewrite existsb2_lookup. split.
  - intros Hall r c b Hr Hc Hb.
    specialize (Hall (r - r0) (c - c0) b). rewrite slice_cell in Hall.
    rewrite decide_True in Hall by lia.
    replace (r0 + (r - r0)) with r in Hall by lia.
    replace (c0 + (c - c0)) with c in Hall by lia.
    by apply Hall.
  - intros Hall i j b. rewrite slice_cell.
    case_decide as Hij; [|done].
    intros Hb. eapply (Hall (r0 + i) (c0 + j)); [| |done]; lia.
Qed.

Lemma block_ok_spec grid covered row col v side :
  block_ok grid covered row col v side = true ↔
  ∀ r c, row ≤ r < row + side → col ≤ c < col + side →
    (∀ x, Np.cell grid r c = Some x → x = v) ∧
    (∀ b, Np.cell covered r c = Some b → b = false).
Proof.
  unfold block_ok. rewrite andb_true_iff, negb_true_iff.
  rewrite all_eq_scalar_spec, any_false_spec. split.
  - intros [Hg Hc] r c Hr Hcc. split; intros; [by eapply Hg | by eapply Hc].
  - intros Hall. split; intros r c x Hr Hc Hx.
    + by apply (Hall r c).
    + by apply (Hall r c).
Qed.

(** On a block inside both arrays the test is the specification's
    condition. *)
Lemma block_ok_uniform grid covered row col v side :
  Np.wf grid → Np.wf covered →
  Np.shape0 covered = Np.shape0 grid → Np.shape1 covered = Np.shape1 grid →
  row + side ≤ Np.shape0 grid → col + side ≤ Np.shape1 grid →
  block_ok grid covered row col v side = true ↔
  uniform_uncovered grid covered row col v side.
Proof.
  intros Hwg Hwc Hs0 Hs1 Hr Hc. rewrite block_ok_spec. unfold uniform_uncovered.
  split; intros Hall r c Hrr Hcc.
  - destruct (Hall r c Hrr Hcc) as [Hg Hcov].
    destruct (cell_is_Some grid r c) as [x Hx]; [done|lia|lia|].
    destruct (cell_is_Some covered r c) as [b Hb]; [done|lia|lia|].
    rewrite Hx, Hb. by rewrite (Hg x), (Hcov b).
  - destruct (Hall r c Hrr Hcc) as [Hg Hcov]. rewrite Hg, Hcov.
    split; congruence.
Qed.

(** The search returns the first candidate that passes, going down. *)
Lemma first_ok_candidates ok n :
  first_ok ok n = head (List.filter ok (candidates n)).
Proof.
  unfold candidates. induction n as [|n IH]; [done|].
  rewrite seq_S, reverse_app. simpl.
  destruct (ok (S n)); [done|]. exact IH.
Qed.

Lemma first_ok_Some ok n side :
  first_ok ok n = Some side ↔
  1 ≤ side ≤ n ∧ ok side = true ∧ ∀ s, side < s ≤ n → ok s = false.
Proof.
  induction n as [|n IH]; simpl.
  - split; [done|]. lia.
  - destruct (ok (S n)) eqn:Hok.
    + split.
      * intros [= <-]. split; [lia|]. split; [done|]. lia.
      * intros (Hs & Hside & Hgt). f_equal.
        destruct (decide (side = S n)) as [|Hne]; [done|].
        rewrite Hgt in Hok by lia. done.
    + rewrite IH. split.
      * intros (Hs & Hside & Hgt). split; [lia|]. split; [done|].
        intros s Hs'. destruct (decide (s = S n)) as [->|]; [done|].
        apply Hgt. lia.
      * intros (Hs & Hside & Hgt).
        assert (side ≠ S n) by congruence.
        split; [lia|]. split; [done|]. intros s Hs'. apply Hgt. lia.
Qed.

Lemma first_ok_None ok n :
  first_ok ok n = None ↔ ∀ s, 1 ≤ s ≤ n → ok s = false.
Proof.
  induction n as [|n IH]; simpl.
  - split; [lia|done].
  - destruct (ok (S n)) eqn:Hok.
    + split; [done|]. intros Hall. rewrite Hall in Hok by lia. done.
    + rewrite IH. split; intros Hall s Hs.
      * destruct (decide (s = S n)) as [->|]; [done|]. apply Hall. lia.
      * apply Hall. lia.
Qed.

(** ** [largest_uniform_square] on an uncovered cell *)

Section SquareSearch.

Variables (grid : Np.ndarray Z) (covered : Np.ndarray bool).
Variables (row col : nat) (v : Z) (max_side : Z).

Hypothesis grid_wf : Np.wf grid.
Hypothesis covered_wf : Np.wf covered.
Hypothesis same_shape0 : Np.shape0 covered = Np.shape0 grid.
Hypothesis same_shape1 : Np.shape1 covered = Np.shape1 grid.

Lemma max_possible_nonneg_bound side :
  1 ≤ side ≤ Z.to_nat (max_possible grid row col max_side) →
  (Z.of_nat side ≤ max_side)%Z ∧
  row + side ≤ Np.shape0 grid ∧ col + side ≤ Np.shape1 grid.
Proof. unfold max_possible. lia. Qed.

(** Whatever the search returns is a block inside the grid whose cells are
    uncovered and hold the queried index. *)
Lemma square_search_sound side :
  square_search grid covered row col v max_side = Some side →
  (1 ≤ Z.of_nat side ≤ max_possible grid row col max_side)%Z ∧
  uniform_uncovered grid covered row col v side ∧
  ∀ s, (Z.of_nat s ≤ max_possible grid row col max_side)%Z →
       uniform_uncovered grid covered row col v s → s ≤ side.
Proof.
  unfold square_search. rewrite first_ok_Some. intros (Hs & Hok & Hgt).
  destruct (max_possible_nonneg_bound side Hs) as (_ & Hr & Hc).
  split; [lia|]. split.
  - by apply block_ok_uniform.
  - intros s Hle Hu. destruct (decide (s ≤ side)) as [|Hlt]; [done|].
    assert (Hs' : 1 ≤ s ≤ Z.to_nat (max_possible grid row col max_side)) by lia.
    destruct (max_possible_nonneg_bound s Hs') as (_ & Hr' & Hc').
    apply block_ok_uniform in Hu; [|done..].
    rewrite Hgt in Hu by lia. done.
Qed.

Hypothesis cell_value : Np.cell grid row col = Some v.
Hypothesis cell_uncovered : Np.cell covered row col = Some false.

Lemma side_one_ok : block_ok grid covered row col v 1 = true.
Proof.
  apply block_ok_spec. intros r c Hr Hc.
  assert (r = row) as -> by lia. assert (c = col) as -> by lia.
  rewrite cell_value, cell_uncovered. split; congruence.
Qed.

Lemma cell_in_bounds : row < Np.shape0 grid ∧ col < Np.shape1 grid.
Proof. by eapply cell_Some_lt. Qed.

Lemma square_search_returns :
  (1 ≤ max_side)%Z →
  ∃ side, square_search grid covered row col v max_side = Some side.
Proof.
  intros Hmax. pose proof cell_in_bounds as [Hr Hc].
  destruct (square_search grid covered row col v max_side) as [side|] eqn:Hs;
    [by eexists|].
  unfold square_search in Hs. rewrite first_ok_None in Hs.
  pose proof side_one_ok as Hone.
  rewrite (Hs 1) in Hone; [done|].
  unfold max_possible. lia.
Qed.

End SquareSearch.

(** ** The coverage mask *)

Lemma in_range_true lo hi i : Np.in_range lo hi i = true ↔ lo ≤ i < hi.
Proof.
  unfold Np.in_range. rewrite andb_true_iff, Nat.leb_le, Nat.ltb_lt. lia.
Qed.

Lemma in_block_true r0 r1 c0 c1 r c :
  in_block r0 r1 c0 c1 r c = true ↔ r0 ≤ r < r1 ∧ c0 ≤ c < c1.
Proof. unfold in_block. by rewrite andb_true_iff, !in_range_true. Qed.

Lemma setslice_cell {A} (a : Np.ndarray A) r0 r1 c0 c1 v r c :
  Np.cell (Np.setslice a r0 r1 c0 c1 v) r c =
  (λ x, if in_block r0 r1 c0 c1 r c then v else x) <$> Np.cell a r c.
Proof.
  unfold Np.cell, Np.setslice, in_block. simpl.
  rewrite list_lookup_imap.
  destruct (Np.rows_of a !! r) as [row|]; simpl; [|done].
  destruct (Np.in_range r0 r1 r); simpl.
  - by rewrite list_lookup_imap.
  - by destruct (row !! c).
Qed.

Lemma setslice_wf {A} (a : Np.ndarray A) r0 r1 c0 c1 v :
  Np.wf a → Np.wf (Np.setslice a r0 r1 c0 c1 v).
Proof.
  intros [Hlen Hall]. split; simpl.
  - by rewrite length_imap.
  - apply Forall_lookup. intros i row. rewrite list_lookup_imap.
    destruct (Np.rows_of a !! i) as [row'|] eqn:Hrow; simpl; [|done].
    intros [= <-]. rewrite Forall_lookup in Hall. specialize (Hall _ _ Hrow).
    destruct (Np.in_range r0 r1 i); [by rewrite length_imap|done].
Qed.

Lemma zeros_wf rows cols : Np.wf (Np.zeros rows cols).
Proof.
  split; simpl.
  - apply length_replicate.
  - apply Forall_replicate. apply length_replicate.
Qed.

Lemma zeros_cell rows cols r c b :
  Np.cell (Np.zeros rows cols) r c = Some b → b = false.
Proof.
  unfold Np.cell. simpl. intros Hb.
  destruct (replicate rows (replicate cols false) !! r) as [row|] eqn:Hrow;
    simpl in Hb; [|done].
  apply lookup_replicate in Hrow as [-> _].
  by apply lookup_replicate in Hb as [-> _].
Qed.

(** ** The plan *)

Lemma writers_nil r c : writers [] r c = 0.
Proof. done. Qed.

Lemma writers_snoc pl p r c :
  writers (pl ++ [p]) r c = writers pl r c + (if footprint p r c then 1 else 0).
Proof.
  unfold writers. rewrite List.filter_app, length_app. simpl.
  by destruct (footprint p r c).
Qed.

Lemma writers_cons pl p r c :
  writers (p :: pl) r c = (if footprint p r c then 1 else 0) + writers pl r c.
Proof. unfold writers. simpl. by destruct (footprint p r c). Qed.

Lemma footprint_true p r c :
  footprint p r c = true ↔
  p_row p ≤ r < p_row p + p_side p ∧ p_col p ≤ c < p_col p + p_side p.
Proof. unfold footprint. by rewrite andb_true_iff, !in_range_true. Qed.

Lemma image_size_base i : image_size i = image_size (canvas_base i).
Proof. induction i; simpl; done. Qed.

(** ** The invariant of the merge-and-paste loop *)

Section LoopInvariant.

Variable grid : Np.ndarray Z.
Variable palette_images : list image.
Variables size zoom max_side : Z.

Hypothesis grid_wf : Np.wf grid.
Hypothesis indices_in_palette :
  ∀ r c v, Np.cell grid r c = Some v → (0 ≤ v < Z.of_nat (length palette_images))%Z.

Local Abbreviation rows := (Np.shape0 grid).
Local Abbreviation cols := (Np.shape1 grid).

Record loop_inv (st : loop_state) : Prop := {
  inv_wf : Np.wf (covered st);
  inv_shape0 : Np.shape0 (covered st) = rows;
  inv_shape1 : Np.shape1 (covered st) = cols;
  inv_writers : ∀ r c b, Np.cell (covered st) r c = Some b →
                  writers (plan st) r c = if b then 1 else 0;
  inv_plan : Forall (good_placement grid max_side) (plan st);
  inv_base : canvas_base (out st) =
             Blank (Z.of_nat cols * size * zoom) (Z.of_nat rows * size * zoom);
  inv_pastes : Forall2 (paste_of palette_images size zoom) (plan st) (pastes (out st))
}.

(** Every cell before the scan position [(row, col)] is covered. *)
Definition covered_before (row col : nat) (st : loop_state) : Prop :=
  ∀ r c, r < rows → c < cols → r < row ∨ (r = row ∧ c < col) →
    Np.cell (covered st) r c = Some true.

Lemma list_getitem_in_range (v : Z) :
  (0 ≤ v < Z.of_nat (length palette_images))%Z →
  ∃ e, list_getitem palette_images v = Ret e ∧
       palette_images !! Z.to_nat v = Some e.
Proof.
  intros Hv. unfold list_getitem.
  destruct (Z.leb_spec 0 v) as [_|]; [|lia].
  destruct (lookup_lt_is_Some_2 palette_images (Z.to_nat v)) as [e He]; [lia|].
  exists e. by rewrite He.
Qed.

(** The side chosen at an uncovered cell, whatever [max_side] is. *)
Lemma chosen_side (cov : Np.ndarray bool) row col v :
  Np.wf cov → Np.shape0 cov = rows → Np.shape1 cov = cols →
  Np.cell grid row col = Some v → Np.cell cov row col = Some false →
  let side := largest_uniform_square grid cov row col v max_side in
  1 ≤ side ∧ row + side ≤ rows ∧ col + side ≤ cols ∧
  (Z.of_nat side ≤ Z.max 1 max_side)%Z ∧
  uniform_uncovered grid cov row col v side.
Proof.
  intros Hwf Hs0 Hs1 Hv Hc. simpl. unfold largest_uniform_square.
  destruct (cell_Some_lt grid row col v grid_wf Hv) as [Hr Hcl].
  destruct (square_search grid cov row col v max_side) as [side|] eqn:Hs.
  - apply square_search_sound in Hs as (Hb & Hu & _); [|done..].
    unfold max_possible in Hb.
    split; [lia|]. split; [lia|]. split; [lia|]. split; [lia|]. done.
  - split; [lia|]. split; [lia|]. split; [lia|]. split; [lia|].
    intros r c Hrr Hcc. assert (r = row) as -> by lia.
    assert (c = col) as -> by lia. done.
Qed.

Lemma place_block_inv row col st :
  loop_inv st → Np.cell (covered st) row col = Some false →
  covered_before row col st →
  ∃ st' side,
    place_block grid palette_images size zoom max_side row col st
      = Ret (st', col + side) ∧
    1 ≤ side ∧ col + side ≤ cols ∧
    loop_inv st' ∧ covered_before row (col + side) st'.
Proof.
  intros Hinv Hcov Hbefore. destruct Hinv.
  destruct (cell_Some_lt _ _ _ _ inv_wf0 Hcov) as [Hr Hc].
  rewrite inv_shape2 in Hr. rewrite inv_shape3 in Hc.
  destruct (cell_is_Some grid row col grid_wf Hr Hc) as [v Hv].
  destruct (chosen_side (covered st) row col v inv_wf0 inv_shape2 inv_shape3 Hv Hcov)
    as (Hs1 & Hsr & Hsc & Hsm & Hu).
  destruct (list_getitem_in_range v (indices_in_palette _ _ _ Hv)) as (e & Hget & He).
  unfold place_block, Np.getitem. rewrite Hv. simpl.
  set (side := largest_uniform_square grid (covered st) row col v max_side) in *.
  rewrite Hget. simpl. eexists _, side. split; [reflexivity|].
  split; [done|]. split; [done|]. split.
  - constructor; simpl.
    + by apply setslice_wf.
    + done.
    + done.
    + intros r c b. rewrite setslice_cell, writers_snoc.
      destruct (Np.cell (covered st) r c) as [b0|] eqn:Hb0; simpl; [|done].
      intros [= <-]. unfold footprint, in_block. simpl.
      fold (in_block row (row + side) col (col + side) r c).
      destruct (in_block row (row + side) col (col + side) r c) eqn:Hin.
      * apply in_block_true in Hin as [Hrr Hcc].
        destruct (Hu r c Hrr Hcc) as [_ Hfalse].
        rewrite Hfalse in Hb0. injection Hb0 as <-.
        by rewrite (inv_writers0 r c false).
      * rewrite (inv_writers0 r c b0 Hb0). lia.
    + apply Forall_app. split; [done|]. constructor; [|done].
      split; [done|]. split; [done|]. split; [done|].
      intros r c Hf. apply footprint_true in Hf. simpl in Hf.
      destruct Hf as [Hfr Hfc]. by destruct (Hu r c Hfr Hfc) as [Hg _].
    + done.
    + apply Forall2_app; [done|]. constructor; [|done].
      exists e. simpl. by rewrite He.
  - intros r c Hrr Hcc Hpos. simpl. rewrite setslice_cell.
    destruct (in_block row (row + side) col (col + side) r c) eqn:Hin.
    + destruct (cell_is_Some (covered st) r c) as [b0 Hb0]; [done|lia|lia|].
      by rewrite Hb0.
    + rewrite (Hbefore r c Hrr Hcc); [done|].
      destruct Hpos as [|[-> Hlt]]; [by left|]. right. split; [done|].
      destruct (decide (c < col)) as [|Hge]; [done|].
      assert (in_block row (row + side) col (col + side) row c = true).
      { apply in_block_true. lia. }
      congruence.
Qed.

Lemma scan_row_inv fuel : ∀ row col st,
  row < rows → col ≤ cols → cols - col ≤ fuel →
  loop_inv st → covered_before row col st →
  ∃ st', scan_row grid palette_images size zoom max_side fuel row col st = Ret st' ∧
         loop_inv st' ∧ covered_before row cols st'.
Proof.
  induction fuel as [|fuel IH]; intros row col st Hrow Hcol Hfuel Hinv Hbefore.
  - simpl. assert (col = cols) as -> by lia.
    rewrite Nat.ltb_irrefl. simpl. by exists st.
  - simpl. destruct (Nat.ltb_spec col cols) as [Hlt|Hge]; simpl.
    + destruct (cell_is_Some (covered st) row col) as [b Hb].
      { apply Hinv. } { by rewrite (inv_shape0 _ Hinv). }
      { by rewrite (inv_shape1 _ Hinv). }
      unfold Np.getitem. rewrite Hb. simpl. destruct b.
      * apply IH; [done|lia|lia|done|].
        intros r c Hr Hc Hpos.
        destruct (decide (r = row ∧ c = col)) as [[-> ->]|Hne]; [done|].
        apply Hbefore; [done..|]. lia.
      * destruct (place_block_inv row col st Hinv Hb Hbefore)
          as (st' & side & Hplace & Hs1 & Hsc & Hinv' & Hbefore').
        rewrite Hplace. simpl. apply IH; [done|lia|lia|done|done].
    + assert (col = cols) as -> by lia. by exists st.
Qed.

Lemma scan_rows_inv len : ∀ start st,
  start + len ≤ rows → loop_inv st → covered_before start 0 st →
  ∃ st', scan_rows grid palette_images size zoom max_side (seq start len) st = Ret st' ∧
         loop_inv st' ∧ covered_before (start + len) 0 st'.
Proof.
  induction len as [|len IH]; intros start st Hlen Hinv Hbefore.
  - simpl. exists st. by rewrite Nat.add_0_r.
  - simpl.
    destruct (scan_row_inv cols start 0 st) as (st1 & Hrow & Hinv1 & Hbefore1);
      [lia|lia|lia|done|done|].
    rewrite Hrow. simpl.
    destruct (IH (S start) st1) as (st2 & Hrest & Hinv2 & Hbefore2); [lia|done| |].
    + intros r c Hr Hc Hpos. apply Hbefore1; [done..|]. lia.
    + exists st2. split; [done|]. split; [done|].
      by replace (start + S len) with (S start + len) by lia.
Qed.

(** The loop returns; at its end the invariant holds and the mask is all
    true. *)
Lemma mosaic_loop_inv :
  ∃ st, mosaic_loop grid palette_images size zoom max_side = Ret st ∧
        loop_inv st ∧
        ∀ r c, r < rows → c < cols → Np.cell (covered st) r c = Some true.
Proof.
  unfold mosaic_loop.
  destruct (scan_rows_inv rows 0
              (mk_state (Np.zeros rows cols)
                 (Blank (Z.of_nat cols * size * zoom) (Z.of_nat rows * size * zoom)) []))
    as (st & Hrun & Hinv & Hbefore).
  - lia.
  - constructor; simpl; [apply zeros_wf|done|done| |done|done|constructor].
    intros r c b Hb. by rewrite (zeros_cell _ _ _ _ _ Hb).
  - intros r c Hr Hc Hpos. lia.
  - exists st. split; [done|]. split; [done|].
    intros r c Hr Hc. apply Hbefore; [done..|]. left. simpl. lia.
Qed.

End LoopInvariant.

(** ** The loops end on every input

    Whatever the grid and the palette are, the fuel that [mosaic_loop] hands
    to the column loop is enough: the loop returns or raises, it never runs
    out of fuel, because every iteration moves [col] forward. *)

Lemma largest_uniform_square_pos grid cov row col v max_side :
  1 ≤ largest_uniform_square grid cov row col v max_side.
Proof.
  unfold largest_uniform_square, square_search.
  destruct (first_ok _ _) as [side|] eqn:Hs; [|done].
  apply first_ok_Some in Hs. lia.
Qed.

Lemma place_block_advances grid palette_images size zoom max_side row col st st' col' :
  place_block grid palette_images size zoom max_side row col st = Ret (st', col') →
  col < col'.
Proof.
  unfold place_block.
  destruct (Np.getitem grid row col) as [v| |]; simpl; [|done..].
  destruct (list_getitem palette_images v) as [e| |]; simpl; [|done..].
  intros [= _ <-].
  pose proof (largest_uniform_square_pos grid (covered st) row col v max_side). lia.
Qed.

Lemma scan_row_fuel grid palette_images size zoom max_side fuel : ∀ row col st,
  Np.shape1 grid - col ≤ fuel →
  scan_row grid palette_images size zoom max_side fuel row col st ≠ OutOfFuel.
Proof.
  induction fuel as [|fuel IH]; intros row col st Hfuel; simpl.
  - destruct (Nat.ltb_spec col (Np.shape1 grid)); [lia|done].
  - destruct (Nat.ltb_spec col (Np.shape1 grid)) as [Hlt|]; simpl; [|done].
    unfold Np.getitem at 1.
    destruct (Np.cell (covered st) row col) as [[|]|]; simpl; [| |done].
    + apply IH. lia.
    + destruct (place_block grid palette_images size zoom max_side row col st)
        as [[st' col']| |] eqn:Hplace; simpl; [|done|].
      * apply place_block_advances in Hplace. apply IH. lia.
      * unfold place_block, Np.getitem, list_getitem in Hplace.
        destruct (Np.cell grid row col) as [v|]; simpl in Hplace; [|done].
        destruct (if (0 <=? v)%Z then _ else _); simpl in Hplace; done.
Qed.

Lemma mosaic_loop_fuel grid palette_images size zoom max_side :
  mosaic_loop grid palette_images size zoom max_side ≠ OutOfFuel.
Proof.
  unfold mosaic_loop. generalize (seq 0 (Np.shape0 grid)).
  generalize (mk_state (Np.zeros (Np.shape0 grid) (Np.shape1 grid))
     (Blank (Z.of_nat (Np.shape1 grid) * size * zoom)
            (Z.of_nat (Np.shape0 grid) * size * zoom)) []).
  intros st rows_todo. revert st.
  induction rows_todo as [|row rest IH]; intros st; simpl; [done|].
  pose proof (scan_row_fuel grid palette_images size zoom max_side
                (Np.shape1 grid) row 0 st) as Hrow.
  destruct (scan_row grid palette_images size zoom max_side (Np.shape1 grid) row 0 st)
    as [st'| |]; simpl; [apply IH|done|]. apply Hrow. lia.
Qed.

(** ** Counting cells

    The number of cell writes of a plan, counted cell by cell and counted
    placement by placement. *)

Lemma sum_list_with_ext_in {A} (f g : A → nat) l :
  (∀ x, x ∈ l → f x = g x) → sum_list_with f l = sum_list_with g l.
Proof.
  induction l as [|x l IH]; intros Hfg; simpl; [done|].
  rewrite Hfg by left. rewrite IH; [done|]. intros y Hy. apply Hfg. by right.
Qed.

Lemma sum_list_with_plus {A} (f g : A → nat) l :
  sum_list_with (λ x, f x + g x) l = sum_list_with f l + sum_list_with g l.
Proof. induction l as [|x l IH]; simpl; [done|]. rewrite IH. lia. Qed.

Lemma sum_list_with_const {A} (k : nat) (l : list A) :
  sum_list_with (λ _, k) l = length l * k.
Proof. induction l as [|x l IH]; simpl; [done|]. rewrite IH. lia. Qed.

Lemma sum_list_with_scale {A} (k : nat) (f : A → nat) l :
  sum_list_with (λ x, f x * k) l = sum_list_with f l * k.
Proof. induction l as [|x l IH]; simpl; [done|]. rewrite IH. lia. Qed.

(** The number of indices below [n] that fall in [[lo, hi)]. *)
Lemma count_in_range lo hi n :
  sum_list_with (λ i, indicator (Np.in_range lo hi i)) (seq 0 n) =
  (hi `min` n) - (lo `min` n).
Proof.
  induction n as [|n IH]; [simpl; lia|].
  rewrite seq_S, sum_list_with_app, IH. simpl.
  destruct (Np.in_range lo hi n) eqn:Hin; simpl.
  - apply in_range_true in Hin. lia.
  - assert (¬ (lo ≤ n < hi)) by (rewrite <- in_range_true; congruence). lia.
Qed.

Lemma sum_cells_ones rows cols f :
  (∀ r c, r < rows → c < cols → f r c = 1) → sum_cells rows cols f = rows * cols.
Proof.
  intros Hf. unfold sum_cells.
  rewrite (sum_list_with_ext_in _ (λ _, cols)).
  - by rewrite sum_list_with_const, length_seq.
  - intros r Hr. apply elem_of_seq in Hr.
    rewrite (sum_list_with_ext_in _ (λ _, 1)).
    + rewrite sum_list_with_const, length_seq. lia.
    + intros c Hc. apply elem_of_seq in Hc. apply Hf; lia.
Qed.

Lemma sum_cells_footprint rows cols p :
  inside rows cols p →
  sum_cells rows cols (λ r c, indicator (footprint p r c)) = p_side p * p_side p.
Proof.
  intros [Hr Hc]. unfold sum_cells, footprint.
  rewrite (sum_list_with_ext_in _
             (λ r, indicator (Np.in_range (p_row p) (p_row p + p_side p) r) * p_side p)).
  - rewrite sum_list_with_scale, count_in_range. f_equal. lia.
  - intros r _. destruct (Np.in_range (p_row p) (p_row p + p_side p) r); simpl.
    + rewrite count_in_range. lia.
    + rewrite sum_list_with_const. lia.
Qed.

Lemma sum_cells_writers rows cols pl :
  Forall (inside rows cols) pl →
  sum_cells rows cols (writers pl) = sum_list_with (λ p, p_side p * p_side p) pl.
Proof.
  induction 1 as [|p pl Hp Hpl IH]; simpl.
  - unfold sum_cells. rewrite (sum_list_with_ext_in _ (λ _, 0)).
    + by rewrite sum_list_with_const, Nat.mul_0_r.
    + intros r _. rewrite (sum_list_with_ext_in _ (λ _, 0)) by done.
      by rewrite sum_list_with_const, Nat.mul_0_r.
  - rewrite <- IH, <- (sum_cells_footprint rows cols p Hp). unfold sum_cells.
    rewrite <- sum_list_with_plus. apply sum_list_with_ext_in. intros r _.
    rewrite <- sum_list_with_plus. apply sum_list_with_ext_in. intros c _.
    apply writers_cons.
Qed.

(** No placement inside the grid writes a cell outside it. *)
Lemma writers_outside rows cols pl r c :
  Forall (inside rows cols) pl → ¬ (r < rows ∧ c < cols) → writers pl r c = 0.
Proof.
  induction 1 as [|p pl [Hr Hc] Hpl IH]; intros Hout; [done|].
  rewrite writers_cons, IH by done.
  destruct (footprint p r c) eqn:Hf; [|done].
  apply footprint_true in Hf. lia.
Qed.

(** ** The block merger: coverage and bounds *)

Lemma indices_below_cell n grid r c v :
  indices_below n grid → Np.cell grid r c = Some v → (0 ≤ v < Z.of_nat n)%Z.
Proof.
  unfold indices_below, Np.cell. intros Hall Hv.
  destruct (Np.rows_of grid !! r) as [row|] eqn:Hrow; simpl in Hv; [|done].
  rewrite Forall_lookup in Hall. specialize (Hall _ _ Hrow).
  rewrite Forall_lookup in Hall. by apply (Hall c).
Qed.

Lemma good_placement_inside grid max_side pl :
  Forall (good_placement grid max_side) pl →
  Forall (inside (Np.shape0 grid) (Np.shape1 grid)) pl.
Proof. intros Hall. eapply Forall_impl; [exact Hall|]. by intros p (_ & Hin & _). Qed.

Lemma example_grid_wf : Np.wf example_grid.
Proof. split; [done|]. repeat constructor. Qed.

Lemma example_grid_indices : indices_below (length example_tiles) example_grid.
Proof. unfold indices_below. simpl. repeat constructor; lia. Qed.





(** C2.  At an uncovered in-bounds cell [(row, col)] of value [v], with
    [max_side ≥ 1], the side chosen by [largest_uniform_square] lies between
    1 and [min(max_side, rows - row, cols - col)], its block is uniform and
    uncovered, no larger side within the bound has that property, and it is
    the first candidate that passes the test when the candidates are tried
    from the largest down. *)
Theorem largest_uniform_square_largest grid covered row col v max_side :
  Np.wf grid → Np.wf covered →
  Np.shape0 covered = Np.shape0 grid → Np.shape1 covered = Np.shape1 grid →
  Np.cell grid row col = Some v → Np.cell covered row col = Some false →
  (1 ≤ max_side)%Z →
  let bound := Z.min (Z.min max_side (Z.of_nat (Np.shape0 grid) - Z.of_nat row))
                     (Z.of_nat (Np.shape1 grid) - Z.of_nat col) in
  let side := largest_uniform_square grid covered row col v max_side in
  (1 ≤ Z.of_nat side ≤ bound)%Z ∧
  uniform_uncovered grid covered row col v side ∧
  (∀ s, (1 ≤ Z.of_nat s ≤ bound)%Z →
        uniform_uncovered grid covered row col v s → s ≤ side) ∧
  head (List.filter (block_ok grid covered row col v) (candidates (Z.to_nat bound)))
    = Some side.
Proof.
  intros Hwg Hwc Hs0 Hs1 Hv Hc Hmax. simpl.
  destruct (square_search_returns grid covered row col v max_side)
    as [side Hside]; [done..|].
  unfold largest_uniform_square. rewrite Hside.
  pose proof (square_search_sound grid covered row col v max_side
                Hwg Hwc Hs0 Hs1 side Hside) as (Hb & Hu & Hlargest).
  unfold max_possible in Hb, Hlargest.
  split; [done|]. split; [done|]. split.
  - intros s Hs. apply Hlargest. lia.
  - rewrite <- first_ok_candidates. exact Hside.
Qed.

Lemma largest_uniform_square_largest_witness :
  let side := largest_uniform_square example_grid example_mask 0 0 1 10 in
  (1 ≤ Z.of_nat side ≤ Z.min (Z.min 10 (3 - 0)) (4 - 0))%Z ∧
  uniform_uncovered example_grid example_mask 0 0 1 side ∧
  (∀ s, (1 ≤ Z.of_nat s ≤ Z.min (Z.min 10 (3 - 0)) (4 - 0))%Z →
        uniform_uncovered example_grid example_mask 0 0 1 s → s ≤ side) ∧
  head (List.filter (block_ok example_grid example_mask 0 0 1)
          (candidates (Z.to_nat (Z.min (Z.min 10 (3 - 0)) (4 - 0))))) = Some side.
Proof.
  apply (largest_uniform_square_largest example_grid example_mask 0 0 1 10).
  - split; [reflexivity|]. repeat constructor.
  - split; [reflexivity|]. repeat constructor.
  - reflexivity.
  - reflexivity.
  - reflexivity.
  - reflexivity.
  - lia.
Defined.

(** C10.  At an in-bounds, uncovered cell whose grid value is the queried
    index, with [max_side ≥ 1], the candidate [side = 1] passes the test; so
    the [for] loop itself returns (the trailing [return 1] is not reached)
    and the returned side lies between 1 and
    [min(max_side, rows - row, cols - col)]. *)
Theorem fallback_unreachable grid covered row col v max_side :
  Np.wf grid → Np.wf covered →
  Np.shape0 covered = Np.shape0 grid → Np.shape1 covered = Np.shape1 grid →
  Np.cell grid row col = Some v → Np.cell covered row col = Some false →
  (1 ≤ max_side)%Z →
  block_ok grid covered row col v 1 = true ∧
  square_search grid covered row col v max_side
    = Some (largest_uniform_square grid covered row col v max_side) ∧
  (1 ≤ Z.of_nat (largest_uniform_square grid covered row col v max_side)
     ≤ Z.min (Z.min max_side (Z.of_nat (Np.shape0 grid) - Z.of_nat row))
             (Z.of_nat (Np.shape1 grid) - Z.of_nat col))%Z.
Proof.
  intros Hwg Hwc Hs0 Hs1 Hv Hc Hmax.
  split; [by apply side_one_ok|].
  destruct (square_search_returns grid covered row col v max_side)
    as [side Hside]; [done..|].
  unfold largest_uniform_square. rewrite Hside. split; [done|].
  by apply (square_search_sound grid covered row col v max_side Hwg Hwc Hs0 Hs1).
Qed.

Lemma fallback_unreachable_witness :
  block_ok example_grid example_mask 1 2 2 1 = true ∧
  square_search example_grid example_mask 1 2 2 5
    = Some (largest_uniform_square example_grid example_mask 1 2 2 5) ∧
  (1 ≤ Z.of_nat (largest_uniform_square example_grid example_mask 1 2 2 5)
     ≤ Z.min (Z.min 5 (3 - 1)) (4 - 2))%Z.
Proof.
  apply (fallback_unreachable example_grid example_mask 1 2 2 5).
  - split; [reflexivity|]. repeat constructor.
  - split; [reflexivity|]. repeat constructor.
  - reflexivity.
  - reflexivity.
  - reflexivity.
  - reflexivity.
  - lia.
Defined.

(** ** Exact rational arithmetic as an instance of [Float] *)

Lemma Qltb_lt x y : Qltb x y = true ↔ (x < y)%Q.
Proof. unfold Qltb, Qlt. apply Z.ltb_lt. Qed.

Lemma Qltb_irrefl x : Qltb x x = false.
Proof. unfold Qltb. apply Z.ltb_irrefl. Qed.

Lemma Qltb_trans x y z : Qltb x y = true → Qltb y z = true → Qltb x z = true.
Proof. rewrite !Qltb_lt. apply Qlt_trans. Qed.

Lemma Qltb_cotrans x y z : Qltb x y = true → Qltb x z = true ∨ Qltb z y = true.
Proof.
  rewrite !Qltb_lt. intros Hxy.
  destruct (Qlt_le_dec x z) as [Hxz|Hzx]; [by left|].
  right. by eapply Qle_lt_trans.
Qed.

Lemma Q_alpha_positive (a : Z) :
  (0 ≤ a ≤ 255)%Z →
  Qltb (inject_Z 0) (Qdiv (inject_Z a) (inject_Z 255)) = (0 <? a)%Z.
Proof.
  intros Ha. unfold Qltb, Qdiv, Qmult, Qinv, inject_Z. simpl.
  destruct (Z.ltb_spec 0 a); apply Z.ltb_lt || apply Z.ltb_ge; lia.
Qed.

#[global] Instance Q_float : Float Q := {|
  of_int := inject_Z;
  fadd := Qplus;
  fsub := Qminus;
  fmul := Qmult;
  fdiv := Qdiv;
  fltb := Qltb;
  fltb_irrefl := Qltb_irrefl;
  fltb_trans := Qltb_trans;
  fltb_cotrans := Qltb_cotrans;
  alpha_positive := Q_alpha_positive
|}.

(** ** The quantizer: nearest palette colour *)

Section Nearest.

Context {F : Type} `{Float F}.

Lemma argmin_from_spec (xs : list F) : ∀ pre best_i best,
  pre !! best_i = Some best →
  (∀ j d, pre !! j = Some d → fltb d best = false) →
  (∀ j d, j < best_i → pre !! j = Some d → fltb best d = true) →
  ∃ m, (pre ++ xs) !! argmin_from best_i best (length pre) xs = Some m ∧
       (∀ j d, (pre ++ xs) !! j = Some d → fltb d m = false) ∧
       (∀ j d, j < argmin_from best_i best (length pre) xs →
               (pre ++ xs) !! j = Some d → fltb m d = true).
Proof.
  induction xs as [|x xs IH]; intros pre best_i best Hbest Hmin Hfirst; simpl.
  - rewrite app_nil_r. by exists best.
  - replace (pre ++ x :: xs) with ((pre ++ [x]) ++ xs) by by rewrite <- app_assoc.
    replace (S (length pre)) with (length (pre ++ [x]))
      by (rewrite length_app; simpl; lia).
    destruct (fltb x best) eqn:Hx.
    + apply IH.
      * by rewrite lookup_app_r, Nat.sub_diag.
      * intros j d Hd. apply lookup_snoc_Some in Hd as [[Hj Hd]|[-> ->]].
        -- destruct (fltb d x) eqn:Hdx; [|done].
           rewrite <- (Hmin j d Hd). symmetry. by eapply fltb_trans.
        -- apply fltb_irrefl.
      * intros j d Hj Hd. rewrite lookup_app_l in Hd by done.
        destruct (fltb_cotrans x best d Hx) as [|Hdb]; [done|].
        by rewrite (Hmin j d Hd) in Hdb.
    + apply IH.
      * rewrite lookup_app_l; [done|]. by eapply lookup_lt_Some.
      * intros j d Hd. apply lookup_snoc_Some in Hd as [[Hj Hd]|[-> ->]];
          [by eapply Hmin|done].
      * intros j d Hj Hd. apply (Hfirst j d Hj).
        rewrite lookup_app_l in Hd; [done|].
        apply lookup_lt_Some in Hbest. lia.
Qed.

Lemma np_argmin_spec (xs : list F) :
  xs ≠ [] →
  ∃ i m, np_argmin xs = Ret i ∧ xs !! i = Some m ∧
         (∀ j d, xs !! j = Some d → fltb d m = false) ∧
         (∀ j d, j < i → xs !! j = Some d → fltb m d = true).
Proof.
  destruct xs as [|x xs]; [done|]. intros _. simpl.
  destruct (argmin_from_spec xs [x] 0 x) as (m & Hm & Hmin & Hfirst).
  - done.
  - intros [|j] d; simpl; [|done]. intros [= <-]. apply fltb_irrefl.
  - intros j d Hj. lia.
  - exists (argmin_from 0 x 1 xs), m. done.
Qed.

(** On a non-empty palette the quantizer returns an index of the palette. *)
Lemma nearest_emoji_index_in_range (color : rgb F) (palette_colors : list (rgb F)) :
  palette_colors ≠ [] →
  ∃ i, nearest_emoji_index color palette_colors = Ret i ∧ i < length palette_colors.
Proof.
  intros Hne. unfold nearest_emoji_index.
  destruct (np_argmin_spec (distance color <$> palette_colors))
    as (i & m & Hrun & Hm & _).
  { by destruct palette_colors. }
  exists i. split; [done|].
  apply lookup_lt_Some in Hm. by rewrite length_fmap in Hm.
Qed.

End Nearest.



(** The two-tile palette of the specification's test: dark and light greys
    go to their side, and the exact tie at 127.5 goes to the lower index. *)
Example nearest_examples :
  nearest_emoji_index (inject_Z 10, inject_Z 10, inject_Z 10) black_and_white = Ret 0 ∧
  nearest_emoji_index (inject_Z 250, inject_Z 250, inject_Z 250) black_and_white = Ret 1 ∧
  nearest_emoji_index mid_grey black_and_white = Ret 0 ∧
  nearest_emoji_index mid_grey (reverse black_and_white) = Ret 0 ∧
  nearest_emoji_index mid_grey ([] : list (rgb Q)) = Raise ValueError.
Proof. repeat split; reflexivity. Qed.

(** In exact arithmetic the distance is the sum of the squared differences
    of the three channels. *)
Lemma distance_exact (color p : rgb Q) :
  (distance color p ==
   (red p - red color) ^ 2 + (green p - green color) ^ 2
   + (blue p - blue color) ^ 2)%Q.
Proof. unfold distance, np_sum, square. simpl. ring. Qed.

(** ** The palette builder: representative colours *)

Lemma concat_fmap2 {A B} (f : A → B) (l : list (list A)) :
  concat (fmap (M := list) (fmap (M := list) f) l) = f <$> concat l.
Proof.
  induction l as [|x l IH]; [done|].
  rewrite fmap_cons, !concat_cons, fmap_app. by rewrite IH.
Qed.

Lemma fmap2_compose {A B C} (f : A → B) (g : B → C) (l : list (list A)) :
  fmap (M := list) (fmap (M := list) g) (fmap (M := list) (fmap (M := list) f) l)
  = fmap (M := list) (fmap (M := list) (λ x, g (f x))) l.
Proof.
  induction l as [|x l IH]; [done|]. rewrite !fmap_cons, IH. f_equal.
  by rewrite <- list_fmap_compose.
Qed.

Lemma existsb_concat {A} (f : A → bool) (l : list (list A)) :
  existsb (existsb f) l = existsb f (concat l).
Proof.
  induction l as [|x l IH]; simpl; [done|]. by rewrite existsb_app, IH.
Qed.

Lemma existsb_fmap {A B} (g : A → B) (f : B → bool) (l : list A) :
  existsb f (g <$> l) = existsb (λ x, f (g x)) l.
Proof. induction l as [|x l IH]; csimpl; [done|]. by rewrite IH. Qed.

Lemma existsb_filter_nil {A} (f : A → bool) (l : list A) :
  existsb f l = false ↔ List.filter f l = [].
Proof.
  induction l as [|x l IH]; simpl; [done|].
  destruct (f x); simpl; [split; done|exact IH].
Qed.

Lemma filter_ext_Forall {A} (f g : A → bool) (l : list A) :
  Forall (λ x, f x = g x) l → List.filter f l = List.filter g l.
Proof.
  induction 1 as [|x l Hx Hl IH]; simpl; [done|]. by rewrite Hx, IH.
Qed.

Lemma existsb_ext_Forall {A} (f g : A → bool) (l : list A) :
  Forall (λ x, f x = g x) l → existsb f l = existsb g l.
Proof.
  induction 1 as [|x l Hx Hl IH]; simpl; [done|]. by rewrite Hx, IH.
Qed.

Lemma zip_filter_fmap {A B} (f : A → B) (m : A → bool) (l : list A) :
  fst <$> List.filter snd (zip (f <$> l) (m <$> l)) = f <$> List.filter m l.
Proof.
  induction l as [|x l IH]; csimpl; [done|].
  destruct (m x); csimpl; by rewrite IH.
Qed.

Lemma boolean_index_fmap {A B} (f : A → B) (m : A → bool) (arr : list (list A)) :
  boolean_index (fmap (M := list) (fmap (M := list) f) arr)
                (fmap (M := list) (fmap (M := list) m) arr)
  = f <$> List.filter m (concat arr).
Proof. unfold boolean_index. rewrite !concat_fmap2. apply zip_filter_fmap. Qed.

Lemma triples_concat (pxs : list (list Z)) :
  Forall (λ px, length px = 3) pxs → triples (concat pxs) = Some (first3 <$> pxs).
Proof.
  induction 1 as [|px pxs Hpx Hpxs IH]; csimpl; [done|].
  destruct px as [|r [|g [|b [|? ?]]]]; simplify_eq/=. by rewrite IH.
Qed.

Lemma raster_wf_pixels img :
  raster_wf img →
  Forall (λ px, length px = bands img ∧ Forall (λ s, (0 ≤ s ≤ 255)%Z) px) (pixels img).
Proof.
  intros [_ Hrows]. unfold pixels. apply Forall_concat.
  eapply Forall_impl; [exact Hrows|]. by intros row [_ Hrow].
Qed.

Section AverageColor.

Context {F : Type} `{Float F}.

Lemma alpha_mask_ok (px : list Z) :
  Forall (λ s, (0 ≤ s ≤ 255)%Z) px →
  fltb (of_int 0) (fdiv (of_int (default 0%Z (px !! 3))) (of_int 255))
  = (0 <? alpha_of px)%Z.
Proof.
  intros Hpx. apply alpha_positive. unfold alpha_of.
  destruct (px !! 3) as [a|] eqn:Ha; simpl; [|lia].
  rewrite Forall_lookup in Hpx. by apply (Hpx 3).
Qed.


End AverageColor.


(** The alpha fallback of the specification: a fully transparent tile has
    the representative colour (0, 0, 0); a half transparent one averages its
    opaque pixel only. *)
Example average_color_examples :
  average_color (F := Q) transparent_tile = Ret (inject_Z 0, inject_Z 0, inject_Z 0) ∧
  (∃ c, average_color (F := Q) example_tile = Ret c ∧
        (red c == 200)%Q ∧ (green c == 100)%Q ∧ (blue c == 0)%Q).
Proof.
  split; [reflexivity|]. eexists. split; [reflexivity|]. by vm_compute.
Qed.

(** ** The region quantizer: the grid *)

Lemma slice1_seq {A} (d : A) (l : list A) start stop :
  stop ≤ length l →
  Np.slice1 start stop l = (λ i, default d (l !! i)) <$> seq start (stop - start).
Proof.
  intros Hstop. apply list_eq. intros i.
  rewrite slice1_lookup, list_lookup_fmap. case_decide as Hi.
  - rewrite lookup_seq_lt by done. simpl.
    destruct (lookup_lt_is_Some_2 l (start + i)) as [x Hx]; [lia|]. by rewrite Hx.
  - by rewrite lookup_seq_ge by lia.
Qed.

Lemma slice2_region img top bottom left right :
  raster_wf img → bottom ≤ height img → right ≤ width img →
  Np.slice2 (samples img) top bottom left right =
  (λ py, (λ px, pixel_at img py px) <$> seq left (right - left))
  <$> seq top (bottom - top).
Proof.
  intros [Hh Hrows] Hb Hr. unfold Np.slice2.
  rewrite (slice1_seq [] (samples img)) by lia.
  rewrite <- list_fmap_compose. apply list_fmap_ext. intros i py Hpy. simpl.
  apply lookup_seq in Hpy as [-> Hi].
  destruct (lookup_lt_is_Some_2 (samples img) (top + i)) as [row Hrow]; [lia|].
  rewrite Hrow. simpl. rewrite Forall_lookup in Hrows.
  destruct (Hrows _ _ Hrow) as [Hw _].
  rewrite (slice1_seq [] row) by lia.
  apply list_fmap_ext. intros j px Hpx. unfold pixel_at. by rewrite Hrow.
Qed.

Lemma mapM_res {A B} (f : A → res B) (g : A → B) (l : list A) :
  (∀ x, x ∈ l → f x = Ret (g x)) → mapM f l = Ret (g <$> l).
Proof.
  induction l as [|x l IH]; intros Hf; [done|].
  change (mapM f (x :: l)) with (y ← f x; k ← mapM f l; mret (y :: k)).
  rewrite Hf by left. rewrite IH; [done|].
  intros y Hy. apply Hf. by right.
Qed.

Lemma ceil_div_pos (n : nat) (size : Z) :
  (0 < size)%Z →
  ∃ q : nat, ceil_div n size = Ret (Z.of_nat q) ∧
             (Z.of_nat n ≤ Z.of_nat q * size < Z.of_nat n + size)%Z.
Proof.
  intros Hsize. unfold ceil_div.
  destruct (Z.eqb_spec size 0) as [|_]; [lia|].
  pose proof (Z.div_mod (- Z.of_nat n) size) as Hdm.
  pose proof (Z.mod_pos_bound (- Z.of_nat n) size Hsize) as Hmod.
  assert (Hq : (0 ≤ - (- Z.of_nat n / size))%Z) by nia.
  exists (Z.to_nat (- (- Z.of_nat n / size))).
  rewrite Z2Nat.id by done. split; [done|]. nia.
Qed.

Lemma slice2_Forall {A} (P : A → Prop) (rows : list (list A)) r0 r1 c0 c1 :
  Forall (Forall P) rows → Forall P (concat (Np.slice2 rows r0 r1 c0 c1)).
Proof.
  intros Hrows. apply Forall_concat. unfold Np.slice2, Np.slice1.
  apply Forall_fmap. apply Forall_take, Forall_drop.
  eapply Forall_impl; [exact Hrows|]. intros row Hrow. simpl.
  by apply Forall_take, Forall_drop.
Qed.

Lemma length_concat_table {A B C} (f : A → B → C) (l1 : list A) (l2 : list B) :
  length (concat ((λ a, f a <$> l2) <$> l1)) = length l1 * length l2.
Proof.
  induction l1 as [|a l1 IH]; [done|].
  rewrite fmap_cons, concat_cons, length_app, IH, length_fmap. simpl. lia.
Qed.

Lemma region_pixels_length img S y x :
  length (region_pixels img S y x) =
  ((y * S + S) `min` height img - y * S) * ((x * S + S) `min` width img - x * S).
Proof. unfold region_pixels. by rewrite length_concat_table, !length_seq. Qed.

Section Grid.

Context {F : Type} `{Float F}.

Variable img : raster.
Variable size : Z.
Variable palette_colors : list (rgb F).

Hypothesis img_wf : raster_wf img.
Hypothesis img_rgb : bands img = 3.
Hypothesis size_pos : (0 < size)%Z.
Hypothesis palette_nonempty : palette_colors ≠ [].

Lemma quantized_nearest y x :
  nearest_emoji_index (mean_color (region_pixels img (Z.to_nat size) y x)) palette_colors
  = Ret (quantized img size palette_colors y x) ∧ quantized img size palette_colors y x < length palette_colors.
Proof.
  unfold quantized.
  destruct (nearest_emoji_index_in_range
              (mean_color (region_pixels img (Z.to_nat size) y x)) palette_colors
              palette_nonempty) as (i & -> & Hi).
  done.
Qed.

Lemma region_is_region_pixels y x :
  concat (region img size y x) = region_pixels img (Z.to_nat size) y x.
Proof.
  unfold region, region_pixels. rewrite slice2_region; [|done|lia|lia].
  replace (Z.to_nat (Z.of_nat y * size)) with (y * Z.to_nat size) by nia.
  replace (Z.to_nat (Z.of_nat x * size)) with (x * Z.to_nat size) by nia.
  replace (Z.to_nat (Z.min (Z.of_nat y * size + size) (Z.of_nat (height img))))
    with ((y * Z.to_nat size + Z.to_nat size) `min` height img) by nia.
  replace (Z.to_nat (Z.min (Z.of_nat x * size + size) (Z.of_nat (width img))))
    with ((x * Z.to_nat size + Z.to_nat size) `min` width img) by nia.
  done.
Qed.

Lemma grid_cell_spec y x :
  grid_cell img size palette_colors y x = Ret (Z.of_nat (quantized img size palette_colors y x)).
Proof.
  unfold grid_cell, reshape3.
  rewrite triples_concat.
  - simpl. rewrite region_is_region_pixels.
    fold (mean_color (F := F) (region_pixels img (Z.to_nat size) y x)).
    destruct (quantized_nearest y x) as [-> _]. done.
  - unfold region. apply slice2_Forall. destruct img_wf as [_ Hrows].
    eapply Forall_impl; [exact Hrows|]. intros row [_ Hrow]. simpl.
    eapply Forall_impl; [exact Hrow|]. intros px [Hlen _]. simpl. congruence.
Qed.

Lemma build_emoji_grid_ok :
  ∃ grid, build_emoji_grid img size palette_colors = Ret grid ∧
    Np.wf grid ∧
    indices_below (length palette_colors) grid ∧
    (Z.of_nat (height img) ≤ Z.of_nat (Np.shape0 grid) * size
       < Z.of_nat (height img) + size)%Z ∧
    (Z.of_nat (width img) ≤ Z.of_nat (Np.shape1 grid) * size
       < Z.of_nat (width img) + size)%Z ∧
    ∀ y x, y < Np.shape0 grid → x < Np.shape1 grid →
      Np.cell grid y x = Some (Z.of_nat (quantized img size palette_colors y x)).
Proof.
  destruct (ceil_div_pos (width img) size size_pos) as (cols & Hcols & Hw).
  destruct (ceil_div_pos (height img) size size_pos) as (rows & Hrows & Hh).
  unfold build_emoji_grid. rewrite Hcols, Hrows. simpl.
  destruct (Z.ltb_spec (Z.of_nat rows) 0) as [|_]; [lia|].
  destruct (Z.ltb_spec (Z.of_nat cols) 0) as [|_]; [lia|]. simpl.
  rewrite !Nat2Z.id.
  rewrite (mapM_res _ (λ y, (λ x, Z.of_nat (quantized img size palette_colors y x)) <$> seq 0 cols)).
  - simpl. eexists. split; [reflexivity|]. simpl.
    split; [|split; [|split; [done|split; [done|]]]].
    + split; simpl.
      * by rewrite length_fmap, length_seq.
      * apply Forall_fmap, Forall_forall. intros y _. simpl.
        by rewrite length_fmap, length_seq.
    + unfold indices_below. simpl.
      apply Forall_fmap, Forall_forall. intros y _. simpl.
      apply Forall_fmap, Forall_forall. intros x _. simpl.
      destruct (quantized_nearest y x) as [_ Hlt]. lia.
    + intros y x Hy Hx. unfold Np.cell. simpl.
      rewrite list_lookup_fmap, lookup_seq_lt by done. simpl.
      by rewrite list_lookup_fmap, lookup_seq_lt by done.
  - intros y _. apply mapM_res. intros x _. apply grid_cell_spec.
Qed.

End Grid.



(** The grid of the example: one row of two cells, the clipped right-hand
    region holding the two light pixels of the last column. *)
Example build_emoji_grid_example :
  build_emoji_grid example_picture 2 black_and_white
    = Ret (Np.mk_ndarray 1 2 [[0; 1]]%Z) ∧
  region_pixels example_picture 2 0 1 = [[250; 250; 250]; [240; 240; 240]]%Z.
Proof. split; reflexivity. Qed.

(** ** The compositor *)

Lemma pasted_tile_spec size zoom e side :
  1 ≤ side → (1 ≤ zoom)%Z → pasted_tile size zoom e side = spec_tile size zoom e side.
Proof.
  intros Hside Hzoom. unfold pasted_tile, spec_tile.
  destruct (decide ((Z.of_nat side * zoom)%Z = 1%Z)) as [Heq|Hne].
  - assert (side = 1) as -> by nia. assert (zoom = 1%Z) as -> by nia. done.
  - destruct (Nat.eqb_spec side 1) as [->|Hs]; [|done].
    destruct (Z.eqb_spec zoom 1) as [->|Hz]; [|done]. lia.
Qed.

Lemma Forall2_with_Forall {A B} (P : A → B → Prop) (Q : A → Prop) l k :
  Forall2 P l k → Forall Q l → Forall2 (λ x y, P x y ∧ Q x) l k.
Proof.
  induction 1 as [|x y l k Hxy Hlk IH]; intros HQ; [constructor|].
  apply Forall_cons in HQ as [Hx Hl]. constructor; [done|]. by apply IH.
Qed.



(** The canvas sizes of the specification's test: a 64 × 64 picture with
    [S = 8] gives an 8 × 8 grid, hence a 64 × 64 canvas at zoom 1 and a
    128 × 128 canvas at zoom 2. *)
Example canvas_sizing :
  ceil_div 64 8 = Ret 8%Z ∧
  image_size (Blank (8 * 8 * 1) (8 * 8 * 1)) = (64, 64)%Z ∧
  image_size (Blank (8 * 8 * 2) (8 * 8 * 2)) = (128, 128)%Z.
Proof. repeat split; reflexivity. Qed.

(** One merged block at zoom 1 on a uniform 2 × 2 grid: the tile is resized
    to twice the tile size and pasted once at the origin. *)
Example merged_block_paste :
  out <$> mosaic_loop (Np.mk_ndarray 2 2 [[0; 0]; [0; 0]]%Z) two_tiles 8 1 10
  = Ret (Pasted (Blank 16 16) (Resized (Blank 2 2) 16 16) 0 0 (Resized (Blank 2 2) 16 16)).
Proof. reflexivity. Qed.

(** ** The palette builder: which files make the palette *)

Lemma string_leb_trans (a b c : string) :
  String.leb a b = true → String.leb b c = true → String.leb a c = true.
Proof.
  unfold String.leb.
  change String.compare with OrdersEx.String_as_OT.compare.
  destruct (OrdersEx.String_as_OT.compare_spec a b) as [->|Hab|Hab]; [done| |done].
  intros _.
  destruct (OrdersEx.String_as_OT.compare_spec b c) as [<-|Hbc|Hbc];
    [| |done]; intros _.
  - unfold OrdersEx.String_as_OT.lt in Hab. by rewrite Hab.
  - assert (Hac : OrdersEx.String_as_OT.lt a c)
      by exact (transitivity (R := OrdersEx.String_as_OT.lt) Hab Hbc).
    unfold OrdersEx.String_as_OT.lt in Hac. by rewrite Hac.
Qed.

#[global] Instance path_le_trans : Transitive path_le.
Proof.
  intros a b c. unfold path_le. rewrite !Is_true_true. apply string_leb_trans.
Qed.

#[global] Instance path_le_total : Total path_le.
Proof.
  intros a b. unfold path_le. rewrite !Is_true_true. apply String.leb_total.
Qed.

#[global] Instance path_le_antisym : AntiSymm (=) path_le.
Proof.
  intros a b. unfold path_le. rewrite !Is_true_true. apply String.leb_antisym.
Qed.

Lemma glob_png_elem (dir : directory) (name : string) :
  name ∈ glob_png dir ↔ is_png name = true ∧ is_Some (dir !! name).
Proof.
  unfold glob_png, directory in *.
  rewrite list_elem_of_In, List.filter_In, <- list_elem_of_In.
  rewrite elem_of_elements, elem_of_dom. tauto.
Qed.

Lemma glob_png_NoDup (dir : directory) : NoDup (glob_png dir).
Proof.
  unfold glob_png. apply NoDup_ListNoDup, List.NoDup_filter, NoDup_ListNoDup.
  apply NoDup_elements.
Qed.

Lemma sorted_elem (paths : list string) (name : string) :
  name ∈ sorted paths ↔ name ∈ paths.
Proof. unfold sorted. by rewrite merge_sort_Permutation. Qed.

Lemma sorted_StronglySorted (paths : list string) :
  StronglySorted path_le (sorted paths).
Proof. apply StronglySorted_merge_sort; apply _. Qed.

Lemma sorted_glob_agree (dir dir' : directory) :
  (∀ name, is_png name = true → dir !! name = dir' !! name) →
  sorted (glob_png dir) = sorted (glob_png dir').
Proof.
  intros Hagree. apply (StronglySorted_unique path_le).
  - apply sorted_StronglySorted.
  - apply sorted_StronglySorted.
  - unfold sorted. rewrite !merge_sort_Permutation.
    apply NoDup_Permutation; [apply glob_png_NoDup..|].
    intros name. rewrite !glob_png_elem.
    split; intros [Hpng Hsome]; split; try done.
    + by rewrite <- Hagree.
    + by rewrite Hagree.
Qed.

Lemma mapM_res_ext {A B} (f g : A → res B) (l : list A) :
  (∀ x, x ∈ l → f x = g x) → mapM f l = mapM g l.
Proof.
  induction l as [|x l IH]; intros Hfg; [done|].
  change (mapM f (x :: l)) with (y ← f x; k ← mapM f l; mret (y :: k)).
  change (mapM g (x :: l)) with (y ← g x; k ← mapM g l; mret (y :: k)).
  rewrite Hfg by left. rewrite IH; [done|]. intros y Hy. apply Hfg. by right.
Qed.

Lemma mapM_res_Forall2 {A B} (f : A → res B) (l : list A) (k : list B) :
  mapM f l = Ret k → Forall2 (λ x y, f x = Ret y) l k.
Proof.
  revert k. induction l as [|x l IH]; intros k.
  - intros [= <-]. constructor.
  - change (mapM f (x :: l)) with (y ← f x; k ← mapM f l; mret (y :: k)).
    destruct (f x) as [y| |] eqn:Hx; simpl; [|done..].
    destruct (mapM f l) as [k'| |]; simpl; [|done..].
    intros [= <-]. constructor; [done|]. by apply IH.
Qed.

(** C9.  Palette construction visits exactly the files of the directory
    whose names match [*.png], in sorted file-name order, and each of them
    contributes one colour and one render image; files with any other name
    have no influence on the result, whatever they contain. *)
Theorem palette_only_sorted_png {F : Type} `{Float F}
    (emojis_dir other_dir : directory) (size : Z) :
  let paths := sorted (glob_png emojis_dir) in
  StronglySorted path_le paths ∧
  NoDup paths ∧
  (∀ name, name ∈ paths ↔ is_png name = true ∧ is_Some (emojis_dir !! name)) ∧
  (∀ colors images,
     build_emoji_palette emojis_dir size = Ret (colors, images) →
     ∃ tiles, Forall2 (λ path tile, load_tile emojis_dir size path = Ret tile)
                      paths tiles ∧
              colors = tiles.*1 ∧ images = tiles.*2) ∧
  ((∀ name, is_png name = true → emojis_dir !! name = other_dir !! name) →
   build_emoji_palette emojis_dir size = build_emoji_palette other_dir size).
Proof.
  simpl. split; [apply sorted_StronglySorted|]. split; [|split; [|split]].
  - unfold sorted. rewrite merge_sort_Permutation. apply glob_png_NoDup.
  - intros name. by rewrite sorted_elem, glob_png_elem.
  - intros colors images. unfold build_emoji_palette.
    destruct (mapM (load_tile emojis_dir size) (sorted (glob_png emojis_dir)))
      as [tiles| |] eqn:Htiles; simpl; [|done..].
    intros [= <- <-]. exists tiles. split; [|done]. by apply mapM_res_Forall2.
  - intros Hagree. unfold build_emoji_palette.
    rewrite <- (sorted_glob_agree emojis_dir other_dir Hagree).
    rewrite (mapM_res_ext (load_tile emojis_dir size) (load_tile other_dir size));
      [done|].
    intros path Hpath. apply sorted_elem, glob_png_elem in Hpath as [Hpng _].
    unfold load_tile, open_rgba. by rewrite (Hagree path Hpng).
Qed.

(** The pattern is case sensitive and needs the dot. *)
Example is_png_examples :
  is_png "a.png" = true ∧ is_png ".png" = true ∧
  is_png "a.PNG" = false ∧ is_png "a.jpg" = false ∧ is_png "apng" = false ∧
  is_png "a.png.bak" = false.
Proof. repeat split; reflexivity. Qed.

(** The example directory: the text file (unreadable as a picture) and the
    JPEG are skipped; the two PNG tiles come out in name order. *)
Example build_emoji_palette_example :
  sorted (glob_png example_dir) = ["a.png"; "b.png"] ∧
  snd <$> build_emoji_palette (F := Q) example_dir 8
    = Ret [Resized (Decoded transparent_tile) 8 8; Resized (Decoded example_tile) 8 8].
Proof. split; by vm_compute. Qed.

Lemma palette_only_sorted_png_witness :
  StronglySorted path_le (sorted (glob_png example_dir)) ∧
  build_emoji_palette (F := Q) example_dir 8 = build_emoji_palette png_only_dir 8.
Proof.
  destruct (palette_only_sorted_png (F := Q) example_dir png_only_dir 8)
    as (Hsorted & _ & _ & _ & Hignored).
  split; [exact Hsorted|]. apply Hignored.
  intros name Hpng. unfold example_dir, png_only_dir.
  destruct (decide (name = "b.png")) as [->|Hb]; [reflexivity|].
  destruct (decide (name = "a.png")) as [->|Ha]; [reflexivity|].
  destruct (decide (name = "notes.txt")) as [->|Hn]; [discriminate Hpng|].
  destruct (decide (name = "c.jpg")) as [->|Hc]; [discriminate Hpng|].
  unfold directory. rewrite !lookup_insert_ne by done. reflexivity.
Defined.

(** ** Configuration values the core does not check *)

Lemma largest_uniform_square_small grid cov row col v max_side :
  (max_side ≤ 1)%Z → largest_uniform_square grid cov row col v max_side = 1.
Proof.
  intros Hmax. unfold largest_uniform_square, square_search.
  assert (Hn : Z.to_nat (max_possible grid row col max_side) ≤ 1)
    by (unfold max_possible; lia).
  destruct (Z.to_nat (max_possible grid row col max_side)) as [|[|n]]; simpl.
  - done.
  - by destruct (block_ok grid cov row col v 1).
  - lia.
Qed.

Lemma place_block_small grid palette_images size zoom max_side row col st :
  (max_side ≤ 1)%Z →
  place_block grid palette_images size zoom max_side row col st =
  place_block grid palette_images size zoom 1 row col st.
Proof.
  intros Hmax. unfold place_block.
  destruct (Np.getitem grid row col) as [v| |]; simpl; [|done..].
  by rewrite !largest_uniform_square_small by lia.
Qed.

Lemma scan_row_small grid palette_images size zoom max_side fuel : ∀ row col st,
  (max_side ≤ 1)%Z →
  scan_row grid palette_images size zoom max_side fuel row col st =
  scan_row grid palette_images size zoom 1 fuel row col st.
Proof.
  induction fuel as [|fuel IH]; intros row col st Hmax; simpl; [done|].
  destruct (negb (col <? Np.shape1 grid)); [done|].
  destruct (Np.getitem (covered st) row col) as [[|]| |]; simpl; [by apply IH| |done..].
  rewrite place_block_small by done.
  destruct (place_block grid palette_images size zoom 1 row col st)
    as [[st' col']| |]; simpl; [by apply IH|done..].
Qed.

Lemma scan_rows_small grid palette_images size zoom max_side rows_todo : ∀ st,
  (max_side ≤ 1)%Z →
  scan_rows grid palette_images size zoom max_side rows_todo st =
  scan_rows grid palette_images size zoom 1 rows_todo st.
Proof.
  induction rows_todo as [|row rest IH]; intros st Hmax; simpl; [done|].
  rewrite scan_row_small by done.
  destruct (scan_row grid palette_images size zoom 1 (Np.shape1 grid) row 0 st)
    as [st'| |]; simpl; [by apply IH|done..].
Qed.

Lemma ceil_div_negative (n : nat) (size : Z) :
  (Z.of_nat n < - size)%Z → ceil_div n size = Ret 0%Z.
Proof.
  intros Hn. unfold ceil_div.
  destruct (Z.eqb_spec size 0) as [|_]; [lia|]. f_equal.
  rewrite <- (Z.opp_involutive size) at 1. rewrite Z.div_opp_opp by lia.
  rewrite Z.div_small by lia. done.
Qed.




(** ** More on the merge loop *)

Lemma place_block_Ret grid palette_images size zoom max_side row col st st' col' :
  place_block grid palette_images size zoom max_side row col st = Ret (st', col') →
  ∃ v e side,
    Np.cell grid row col = Some v ∧
    list_getitem palette_images v = Ret e ∧
    side = largest_uniform_square grid (covered st) row col v max_side ∧
    1 ≤ side ∧ col' = col + side ∧
    covered st' = Np.setslice (covered st) row (row + side) col (col + side) true ∧
    plan st' = plan st ++ [mk_placement row col v side] ∧
    out st' = Pasted (out st) (pasted_tile size zoom e side)
                (Z.of_nat col * size * zoom) (Z.of_nat row * size * zoom)
                (pasted_tile size zoom e side).
Proof.
  unfold place_block, Np.getitem.
  destruct (Np.cell grid row col) as [v|]; simpl; [|done].
  destruct (list_getitem palette_images v) as [e| |] eqn:He; simpl; [|done..].
  intros [= <- <-].
  exists v, e, (largest_uniform_square grid (covered st) row col v max_side).
  split_and!; try done. apply largest_uniform_square_pos.
Qed.

(** Two block-side limits that always choose the same side give the same
    run of the loop. *)
Section SameSides.

Variable grid : Np.ndarray Z.
Variable palette_images : list image.
Variables size zoom m m' : Z.

Hypothesis same_side : ∀ cov row col v,
  largest_uniform_square grid cov row col v m
  = largest_uniform_square grid cov row col v m'.

Lemma place_block_same row col st :
  place_block grid palette_images size zoom m row col st
  = place_block grid palette_images size zoom m' row col st.
Proof.
  unfold place_block.
  destruct (Np.getitem grid row col) as [v| |]; simpl; [|done..].
  by rewrite same_side.
Qed.

Lemma scan_row_same fuel : ∀ row col st,
  scan_row grid palette_images size zoom m fuel row col st
  = scan_row grid palette_images size zoom m' fuel row col st.
Proof.
  induction fuel as [|fuel IH]; intros row col st; simpl; [done|].
  destruct (negb (col <? Np.shape1 grid)); [done|].
  destruct (Np.getitem (covered st) row col) as [[|]| |]; simpl; [by apply IH| |done..].
  rewrite place_block_same.
  destruct (place_block grid palette_images size zoom m' row col st)
    as [[st' col']| |]; simpl; [by apply IH|done..].
Qed.

Lemma mosaic_loop_same :
  mosaic_loop grid palette_images size zoom m
  = mosaic_loop grid palette_images size zoom m'.
Proof.
  unfold mosaic_loop. generalize (seq 0 (Np.shape0 grid)).
  generalize (mk_state (Np.zeros (Np.shape0 grid) (Np.shape1 grid))
     (Blank (Z.of_nat (Np.shape1 grid) * size * zoom)
            (Z.of_nat (Np.shape0 grid) * size * zoom)) []).
  intros st rows_todo. revert st.
  induction rows_todo as [|row rest IH]; intros st; simpl; [done|].
  rewrite scan_row_same.
  destruct (scan_row grid palette_images size zoom m' (Np.shape1 grid) row 0 st)
    as [st'| |]; simpl; [by apply IH|done..].
Qed.

End SameSides.

(** X1.  Once the block-side limit reaches the smaller dimension of the
    grid it has no further effect: any two such limits give the same run of
    the merge loop, canvas included. *)
Theorem large_limit_irrelevant grid palette_images size zoom m m' :
  (Z.of_nat (Np.shape0 grid `min` Np.shape1 grid) ≤ m)%Z →
  (Z.of_nat (Np.shape0 grid `min` Np.shape1 grid) ≤ m')%Z →
  mosaic_loop grid palette_images size zoom m
  = mosaic_loop grid palette_images size zoom m'.
Proof.
  intros Hm Hm'. apply mosaic_loop_same. intros cov row col v.
  unfold largest_uniform_square, square_search.
  replace (max_possible grid row col m') with (max_possible grid row col m);
    [done|].
  unfold max_possible. lia.
Qed.

Lemma large_limit_irrelevant_witness :
  mosaic_loop example_grid example_tiles 8 1 3
  = mosaic_loop example_grid example_tiles 8 1 20.
Proof.
  apply (large_limit_irrelevant example_grid example_tiles 8 1 3 20).
  - simpl. lia.
  - simpl. lia.
Defined.

Lemma writers_pos_elem pl r c :
  0 < writers pl r c → ∃ p, p ∈ pl ∧ footprint p r c = true.
Proof.
  induction pl as [|p pl IH]; [rewrite writers_nil; lia|].
  rewrite writers_cons. destruct (footprint p r c) eqn:Hf.
  - intros _. exists p. split; [left|done].
  - simpl. intros Hpos. destruct (IH Hpos) as (q & Hq & Hfq).
    exists q. split; [by right|done].
Qed.



Lemma plan_area_length pl :
  Forall (λ p, 1 ≤ p_side p) pl → length pl ≤ plan_area pl.
Proof.
  unfold plan_area. induction 1 as [|p pl Hp Hpl IH]; [done|].
  change (S (length pl) ≤ p_side p * p_side p
            + sum_list_with (λ p, p_side p * p_side p) pl).
  assert (1 ≤ p_side p * p_side p) by (destruct (p_side p); simpl; lia).
  lia.
Qed.



Lemma StronglySorted_snoc {A} (R : A → A → Prop) (l : list A) (x : A) :
  StronglySorted R l → Forall (λ y, R y x) l → StronglySorted R (l ++ [x]).
Proof.
  induction 1 as [|y l Hl IH Hy]; intros Hall; simpl.
  - repeat constructor.
  - apply Forall_cons in Hall as [Hyx Hall]. constructor; [by apply IH|].
    apply Forall_app. split; [done|]. by repeat constructor.
Qed.

Lemma scan_row_order grid palette_images size zoom max_side fuel :
  ∀ row col st st',
  scan_row grid palette_images size zoom max_side fuel row col st = Ret st' →
  StronglySorted anchor_before (plan st) →
  Forall (anchored_before row col) (plan st) →
  StronglySorted anchor_before (plan st') ∧
  Forall (anchored_before (S row) 0) (plan st').
Proof.
  assert (Hend : ∀ row col st, Forall (anchored_before row col) (plan st) →
                               Forall (anchored_before (S row) 0) (plan st)).
  { intros row col st Hb. eapply Forall_impl; [exact Hb|].
    unfold anchored_before. lia. }
  induction fuel as [|fuel IH]; intros row col st st'; simpl.
  - destruct (negb (col <? Np.shape1 grid)); [|done].
    intros [= <-] Hs Hb. split; [done|]. by eapply Hend.
  - destruct (negb (col <? Np.shape1 grid)).
    { intros [= <-] Hs Hb. split; [done|]. by eapply Hend. }
    destruct (Np.getitem (covered st) row col) as [[|]| |]; simpl; [| |done..].
    + intros Hrun Hs Hb. apply (IH _ _ _ _ Hrun Hs).
      eapply Forall_impl; [exact Hb|]. unfold anchored_before. lia.
    + destruct (place_block grid palette_images size zoom max_side row col st)
        as [[st1 col1]| |] eqn:Hplace; simpl; [|done..].
      apply place_block_Ret in Hplace
        as (v & e & side & _ & _ & _ & Hside & -> & _ & Hplan & _).
      intros Hrun Hs Hb. apply (IH _ _ _ _ Hrun); rewrite Hplan.
      * apply StronglySorted_snoc; [done|].
        eapply Forall_impl; [exact Hb|]. by intros p.
      * apply Forall_app. split.
        -- eapply Forall_impl; [exact Hb|]. unfold anchored_before. lia.
        -- constructor; [|constructor]. unfold anchored_before. simpl. lia.
Qed.

(** X4.  Whenever the merge loop returns, the placements were emitted in
    strictly increasing row-major order of their anchor cells. *)
Theorem plan_in_row_major_order grid palette_images size zoom max_side st :
  mosaic_loop grid palette_images size zoom max_side = Ret st →
  StronglySorted anchor_before (plan st).
Proof.
  unfold mosaic_loop.
  assert (Hrows : ∀ len start st0,
            scan_rows grid palette_images size zoom max_side (seq start len) st0
              = Ret st →
            StronglySorted anchor_before (plan st0) →
            Forall (λ p, p_row p < start) (plan st0) →
            StronglySorted anchor_before (plan st)).
  { induction len as [|len IH]; intros start st0; simpl.
    - by intros [= <-].
    - destruct (scan_row grid palette_images size zoom max_side
                  (Np.shape1 grid) start 0 st0) as [st1| |] eqn:Hrow; simpl; [|done..].
      intros Hrun Hs Hb.
      destruct (scan_row_order _ _ _ _ _ _ _ _ _ _ Hrow Hs) as [Hs1 Hb1].
      { eapply Forall_impl; [exact Hb|]. unfold anchored_before. lia. }
      apply (IH (S start) st1 Hrun Hs1).
      eapply Forall_impl; [exact Hb1|]. unfold anchored_before. lia. }
  intros Hrun. apply (Hrows _ _ _ Hrun); simpl; constructor.
Qed.

Lemma plan_in_row_major_order_witness :
  StronglySorted anchor_before (plan example_run).
Proof.
  apply (plan_in_row_major_order example_grid example_tiles 8 1 2 example_run).
  reflexivity.
Defined.

(** The tile size and the zoom reach only the Pillow calls. *)
Section Scale.

Variable grid : Np.ndarray Z.
Variable palette_images : list image.
Variable max_side : Z.
Variables size zoom size' zoom' : Z.

Definition same_tiling (a b : loop_state) : Prop := tiling a = tiling b.

Lemma place_block_scale row col st1 st2 :
  same_tiling st1 st2 →
  res_rel (λ a b, same_tiling a.1 b.1 ∧ a.2 = b.2)
    (place_block grid palette_images size zoom max_side row col st1)
    (place_block grid palette_images size' zoom' max_side row col st2).
Proof.
  unfold same_tiling, tiling. intros [= Hc Hp]. unfold place_block.
  destruct (Np.getitem grid row col) as [v| |]; simpl; [|done..].
  destruct (list_getitem palette_images v) as [e| |]; simpl; [|done..].
  by rewrite Hc, Hp.
Qed.

Lemma scan_row_scale fuel : ∀ row col st1 st2,
  same_tiling st1 st2 →
  res_rel same_tiling
    (scan_row grid palette_images size zoom max_side fuel row col st1)
    (scan_row grid palette_images size' zoom' max_side fuel row col st2).
Proof.
  induction fuel as [|fuel IH]; intros row col st1 st2 Hst; simpl.
  - by destruct (negb (col <? Np.shape1 grid)).
  - destruct (negb (col <? Np.shape1 grid)); [done|].
    assert (Hc : covered st1 = covered st2) by (by injection Hst).
    rewrite Hc.
    destruct (Np.getitem (covered st2) row col) as [[|]| |]; simpl; [by apply IH| |done..].
    pose proof (place_block_scale row col st1 st2 Hst) as Hplace.
    destruct (place_block grid palette_images size zoom max_side row col st1)
      as [[a c]| |],
      (place_block grid palette_images size' zoom' max_side row col st2)
      as [[b c']| |]; simpl in *; try done.
    destruct Hplace as [Hab ->]. by apply IH.
Qed.

Lemma scan_rows_scale rows_todo : ∀ st1 st2,
  same_tiling st1 st2 →
  res_rel same_tiling
    (scan_rows grid palette_images size zoom max_side rows_todo st1)
    (scan_rows grid palette_images size' zoom' max_side rows_todo st2).
Proof.
  induction rows_todo as [|row rest IH]; intros st1 st2 Hst; simpl; [done|].
  pose proof (scan_row_scale (Np.shape1 grid) row 0 st1 st2 Hst) as Hrow.
  destruct (scan_row grid palette_images size zoom max_side (Np.shape1 grid) row 0 st1),
    (scan_row grid palette_images size' zoom' max_side (Np.shape1 grid) row 0 st2);
    simpl in *; try done.
  by apply IH.
Qed.

End Scale.


(** ** More on the quantizer *)

Lemma mapM_res_raise_first {A B} (f : A → res B) (x : A) (l : list A) (e : exn) :
  f x = Raise e → mapM f (x :: l) = Raise e.
Proof.
  intros Hx.
  change (mapM f (x :: l)) with (y ← f x; k ← mapM f l; mret (y :: k)).
  by rewrite Hx.
Qed.

Lemma region_triples {F : Type} `{Float F} (img : raster) (size : Z) (y x : nat) :
  raster_wf img → bands img = 3 →
  reshape3 (concat (concat (region img size y x)))
  = Ret (first3 <$> concat (region img size y x)).
Proof.
  intros [_ Hrows] Hrgb. unfold reshape3. rewrite triples_concat; [done|].
  unfold region. apply slice2_Forall.
  eapply Forall_impl; [exact Hrows|]. intros row [_ Hrow]. simpl.
  eapply Forall_impl; [exact Hrow|]. intros px [Hlen _]. simpl. congruence.
Qed.



(** ** More on the palette builder *)

Section PaletteRuns.

Context {F : Type} `{Float F}.

Lemma average_color_rgba (r : raster) :
  raster_wf r → bands r = 4 → average_color r = Ret (representative_color r).
Proof.
  intros Hwf Hb. pose proof (raster_wf_pixels r Hwf) as Hpx.
  unfold average_color, representative_color. rewrite Hb. simpl.
  rewrite fmap2_compose.
  unfold Np.any. rewrite existsb_concat, concat_fmap2, existsb_fmap.
  fold (pixels r). simpl.
  assert (Hmask : Forall (λ px,
            fltb (of_int 0) (fdiv (of_int (default 0%Z (px !! 3))) (of_int 255))
            = (0 <? alpha_of px)%Z) (pixels r)).
  { eapply Forall_impl; [exact Hpx|]. intros px [_ Hs]. by apply alpha_mask_ok. }
  rewrite (existsb_ext_Forall _ _ _ Hmask).
  rewrite boolean_index_fmap. fold (pixels r).
  rewrite (filter_ext_Forall _ _ _ Hmask). fold (opaque_pixels r).
  destruct (existsb (λ px, (0 <? alpha_of px)%Z) (pixels r)) eqn:Hany; simpl.
  - destruct (opaque_pixels r) eqn:Hop; [|done].
    apply existsb_filter_nil in Hop. congruence.
  - apply existsb_filter_nil in Hany. unfold opaque_pixels. by rewrite Hany.
Qed.

Lemma load_tile_readable (emojis_dir : directory) (size : Z) (name : string) (r : raster) :
  emojis_dir !! name = Some (Some r) → raster_wf r → bands r = 4 →
  load_tile emojis_dir size name
  = Ret (representative_color r, Resized (Decoded r) size size).
Proof.
  intros Hfile Hwf Hb. unfold load_tile, open_rgba. rewrite Hfile. simpl.
  by rewrite (average_color_rgba r Hwf Hb).
Qed.

Lemma load_tile_unreadable (emojis_dir : directory) (size : Z) (name : string) :
  emojis_dir !! name = Some None →
  load_tile (F := F) emojis_dir size name = Raise UnidentifiedImageError.
Proof. intros Hfile. unfold load_tile, open_rgba. by rewrite Hfile. Qed.

Lemma mapM_res_raise {A B} (f : A → res B) (l : list A) (e : exn) :
  (∀ x, x ∈ l → f x = Raise e ∨ ∃ y, f x = Ret y) →
  (∃ x, x ∈ l ∧ f x = Raise e) →
  mapM f l = Raise e.
Proof.
  induction l as [|x l IH]; intros Hall (x0 & Hx0 & Hraise).
  - by apply elem_of_nil in Hx0.
  - change (mapM f (x :: l)) with (y ← f x; k ← mapM f l; mret (y :: k)).
    destruct (Hall x) as [Hx|[y Hx]]; [left|by rewrite Hx|].
    rewrite Hx. simpl. rewrite IH; [done| |].
    + intros z Hz. apply Hall. by right.
    + apply elem_of_cons in Hx0 as [->|Hx0]; [congruence|]. by exists x0.
Qed.



End PaletteRuns.



(** ** The pipeline: palette, grid, merge, canvas *)

Lemma build_emoji_palette_lengths {F : Type} `{Float F}
    (emojis_dir : directory) (size : Z) colors images :
  build_emoji_palette emojis_dir size = Ret (colors, images) →
  length images = length colors.
Proof.
  unfold build_emoji_palette.
  destruct (mapM _ _) as [tiles| |]; simpl; [|done..].
  intros [= <- <-]. by rewrite !length_fmap.
Qed.



(** ** Strings and paths: facts *)

Example dot_is_dot : String dot "" = ".".
Proof. reflexivity. Qed.

Lemma append_cons (x : Ascii.ascii) (a b : string) :
  String x a +:+ b = String x (a +:+ b).
Proof. reflexivity. Qed.

Lemma append_inj_l (a b c : string) : a +:+ b = a +:+ c → b = c.
Proof.
  induction a as [|x a IH]; [done|]. rewrite !append_cons.
  intros [= Heq]. by apply IH.
Qed.

Lemma append_nil_r (a : string) : a +:+ "" = a.
Proof. induction a as [|x a IH]; [done|]. by rewrite append_cons, IH. Qed.

Lemma length_append (a b : string) :
  String.length (a +:+ b) = String.length a + String.length b.
Proof. induction a as [|x a IH]; [done|]. rewrite append_cons. simpl. by rewrite IH. Qed.

Lemma substring_all (s : string) : String.substring 0 (String.length s) s = s.
Proof. induction s as [|x s IH]; simpl; [done|]. f_equal. exact IH. Qed.

Lemma substring_append_r (a t : string) :
  String.substring (String.length a) (String.length t) (a +:+ t) = t.
Proof.
  induction a as [|x a IH]; [apply substring_all|].
  rewrite append_cons. simpl. exact IH.
Qed.

Lemma endswith_append (a t : string) : endswith (a +:+ t) t = true.
Proof.
  unfold endswith. rewrite length_append.
  replace (String.length a + String.length t - String.length t)
    with (String.length a) by lia.
  rewrite substring_append_r, String.eqb_refl, andb_true_r.
  apply Nat.leb_le. lia.
Qed.

Lemma str_split (i : nat) (s : string) :
  i ≤ String.length s → str_upto i s +:+ str_from i s = s.
Proof.
  unfold str_upto, str_from. revert i.
  induction s as [|x s IH]; intros [|i] Hi; simpl in *; try lia; try done.
  - by rewrite substring_all.
  - rewrite append_cons. f_equal. apply IH. lia.
Qed.

Lemma rfind_dot_get (s : string) (i : nat) :
  rfind_dot s = Some i → i < String.length s ∧ String.get i s = Some dot.
Proof.
  revert i. induction s as [|x s IH]; intros i; simpl; [done|].
  destruct (rfind_dot s) as [j|].
  - intros [= <-]. destruct (IH j eq_refl) as [Hj Hget]. split; [lia|done].
  - destruct (Ascii.eqb_spec x dot) as [->|]; [|done].
    intros [= <-]. split; [lia|done].
Qed.

Lemma str_from_head (s : string) (i : nat) (c : Ascii.ascii) :
  String.get i s = Some c → ∃ t, str_from i s = String c t.
Proof.
  unfold str_from. revert i.
  induction s as [|x s IH]; intros [|i]; simpl; try done.
  - intros [= ->]. by eexists.
  - apply IH.
Qed.

Lemma stem_suffix (nm : string) : stem nm +:+ suffix nm = nm.
Proof.
  unfold stem, suffix, suffix_index.
  destruct (rfind_dot nm) as [i|] eqn:Hi; [|apply append_nil_r].
  destruct ((0 <? i) && (i <? String.length nm - 1)); [|apply append_nil_r].
  apply str_split. apply rfind_dot_get in Hi. lia.
Qed.

Lemma suffix_starts_with_dot (nm : string) :
  suffix nm = "" ∨ ∃ t, suffix nm = String dot t.
Proof.
  unfold suffix, suffix_index.
  destruct (rfind_dot nm) as [i|] eqn:Hi; [|by left].
  destruct ((0 <? i) && (i <? String.length nm - 1)); [|by left].
  right. apply rfind_dot_get in Hi as [_ Hget]. by eapply str_from_head.
Qed.

Lemma stem_mosaic_ne (nm : string) : stem nm +:+ "-mosaic.png" ≠ nm.
Proof.
  intros Heq. rewrite <- (stem_suffix nm) in Heq at 2.
  apply append_inj_l in Heq.
  destruct (suffix_starts_with_dot nm) as [Hs|[t Hs]]; rewrite Hs in Heq; done.
Qed.

Lemma path_str_inj (dir a b : string) :
  path_str (mk_path dir a) = path_str (mk_path dir b) → a = b.
Proof.
  unfold path_str. simpl. intros Heq.
  apply append_inj_l in Heq. by apply (append_inj_l "/") in Heq.
Qed.

(** The suffix and the stem of some names. *)
Example suffix_examples :
  suffix "photo.png" = ".png" ∧ stem "photo.png" = "photo" ∧
  suffix "a.tar.gz" = ".gz" ∧ stem "a.tar.gz" = "a.tar" ∧
  suffix ".hidden" = "" ∧ stem ".hidden" = ".hidden" ∧
  suffix "noext" = "" ∧ suffix "trailing." = "" ∧
  stem "clip-00001.png" = "clip-00001".
Proof. repeat split; reflexivity. Qed.

(** ** The command line: where the mosaics go *)

Section MainFacts.

Context {F : Type} `{Float F}.

Lemma mosaic_frame_Ret (frames : gmap string (option raster)) frame_path
    (palette_colors : list (rgb F)) palette_images size zoom max_emoji_block
    out_path written written' :
  mosaic_frame frames frame_path palette_colors palette_images size zoom
               max_emoji_block out_path written = Ret written' →
  ∃ img canvas,
    frames !! frame_path = Some (Some img) ∧
    mosaic_image img palette_colors palette_images size zoom max_emoji_block
      = Ret canvas ∧
    written' = <[out_path := canvas]> written.
Proof.
  unfold mosaic_frame, open_rgb.
  destruct (frames !! frame_path) as [[img|]|] eqn:Himg; simpl; [|done..].
  destruct (mosaic_image img palette_colors palette_images size zoom max_emoji_block)
    as [canvas| |] eqn:Hcanvas; simpl; [|done..].
  intros [= <-]. exists img, canvas. split; [done|]. split; [exact Hcanvas|done].
Qed.

(** X10.  Without [--out] (or with an empty one) the still-picture branch of
    [main] writes its mosaic next to the input, under the input's stem
    followed by [-mosaic.png]; that path is never the input path, so the
    input picture is not overwritten, and no other file is written. *)
Theorem default_output_spares_input (emojis_dir : directory)
    (frames : gmap string (option raster)) (image_path : path)
    (size zoom max_emoji_block : Z) (out : option string)
    (written written' : gmap string image) :
  out = None ∨ out = Some "" →
  main_image (F := F) emojis_dir frames image_path size zoom max_emoji_block
             out written = Ret written' →
  let out_path :=
    path_str (mk_path (dirname image_path)
                      (stem (basename image_path) +:+ "-mosaic.png")) in
  out_path ≠ path_str image_path ∧
  (∃ canvas, written' = <[out_path := canvas]> written) ∧
  ∀ other, other ≠ out_path → written' !! other = written !! other.
Proof.
  intros Hout. unfold main_image.
  destruct (build_emoji_palette emojis_dir size) as [[colors images]| |];
    simpl; [|done..].
  assert (Hdefault :
    match out with
    | Some o => if String.eqb o ""
                then path_str <$> with_name image_path
                                    (stem (basename image_path) +:+ "-mosaic.png")
                else Ret o
    | None => path_str <$> with_name image_path
                             (stem (basename image_path) +:+ "-mosaic.png")
    end
    = path_str <$> with_name image_path
                     (stem (basename image_path) +:+ "-mosaic.png")).
  { by destruct Hout as [->| ->]. }
  rewrite Hdefault. clear Hdefault. unfold with_name.
  destruct (String.eqb (basename image_path) ""); simpl; [done|].
  intros Hrun. apply mosaic_frame_Ret in Hrun as (img & canvas & _ & _ & ->).
  split; [|split].
  - destruct image_path as [dir nm]. simpl. intros Heq.
    apply path_str_inj in Heq. by apply stem_mosaic_ne in Heq.
  - by exists canvas.
  - intros other Hother. by rewrite lookup_insert_ne.
Qed.

Lemma frames_loop_Ret (frames : gmap string (option raster)) tmp_dir
    (palette_colors : list (rgb F)) palette_images size zoom max_emoji_block
    (todo : list string) : ∀ written written',
  frames_loop frames tmp_dir palette_colors palette_images size zoom
              max_emoji_block todo written = Ret written' →
  (∀ f, f ∈ todo →
     is_Some (frames !! path_str (mk_path tmp_dir f)) ∧
     is_Some (written' !! path_str (mk_path tmp_dir (stem f +:+ "-mosaic.png")))) ∧
  (∀ key, (∀ f, f ∈ todo →
             key ≠ path_str (mk_path tmp_dir (stem f +:+ "-mosaic.png"))) →
          written' !! key = written !! key).
Proof.
  induction todo as [|frame rest IH]; intros written written'; simpl.
  - intros [= <-]. split; [|done]. intros f Hf. by apply elem_of_nil in Hf.
  - destruct (mosaic_frame frames (path_str (mk_path tmp_dir frame)) palette_colors
                palette_images size zoom max_emoji_block
                (path_str (mk_path tmp_dir (stem frame +:+ "-mosaic.png"))) written)
      as [w1| |] eqn:Hframe; simpl; [|done..].
    intros Hrest. apply mosaic_frame_Ret in Hframe as (img & canvas & Himg & _ & ->).
    destruct (IH _ _ Hrest) as [Hdone Hkept]. split.
    + intros f Hf. apply elem_of_cons in Hf as [->|Hf]; [|by apply Hdone].
      split; [by rewrite Himg|].
      destruct (decide (Exists (λ g,
                  path_str (mk_path tmp_dir (stem frame +:+ "-mosaic.png"))
                  = path_str (mk_path tmp_dir (stem g +:+ "-mosaic.png"))) rest))
        as [Hex|Hnex].
      * apply Exists_exists in Hex as (g & Hg & ->). by apply Hdone.
      * rewrite Hkept, lookup_insert_eq; [done|].
        intros g Hg Heq. apply Hnex, Exists_exists. by exists g.
    + intros key Hkey. rewrite Hkept.
      * rewrite lookup_insert_ne; [done|]. intros Heq.
        by apply (Hkey frame); [left|].
      * intros f Hf. apply Hkey. by right.
Qed.

(** X11.  When the frame loop of [main] returns, every listed frame whose
    name does not end in [-mosaic.png] was read and has its mosaic, written
    under the frame's stem followed by [-mosaic.png]; names that end in
    [-mosaic.png] are skipped; and no frame that was processed is overwritten,
    because only names ending in [-mosaic.png] are written. *)
Theorem frames_are_never_overwritten (frames : gmap string (option raster))
    (tmp_dir : string) (listing : list string)
    (palette_colors : list (rgb F)) (palette_images : list image)
    (size zoom max_emoji_block : Z) (written written' : gmap string image) :
  mosaic_frames frames tmp_dir listing palette_colors palette_images size zoom
                max_emoji_block written = Ret written' →
  (∀ f, f ∈ listing → endswith f "-mosaic.png" = false →
     is_Some (written' !! path_str (mk_path tmp_dir (stem f +:+ "-mosaic.png"))) ∧
     written' !! path_str (mk_path tmp_dir f)
       = written !! path_str (mk_path tmp_dir f)) ∧
  (∀ key, written' !! key ≠ written !! key →
     ∃ f, f ∈ listing ∧ endswith f "-mosaic.png" = false ∧
          key = path_str (mk_path tmp_dir (stem f +:+ "-mosaic.png"))).
Proof.
  unfold mosaic_frames. intros Hrun.
  apply frames_loop_Ret in Hrun as [Hdone Hkept].
  assert (Htodo : ∀ f, f ∈ List.filter (λ f, negb (endswith f "-mosaic.png")) listing
                       ↔ f ∈ listing ∧ endswith f "-mosaic.png" = false).
  { intros f. rewrite list_elem_of_In, List.filter_In, <- list_elem_of_In.
    by rewrite negb_true_iff. }
  split.
  - intros f Hf Hend. split.
    + apply Hdone. by apply Htodo.
    + apply Hkept. intros g Hg Heq. apply path_str_inj in Heq.
      rewrite Heq, endswith_append in Hend. done.
  - intros key Hkey.
    destruct (decide (Exists (λ f,
                key = path_str (mk_path tmp_dir (stem f +:+ "-mosaic.png")))
                (List.filter (λ f, negb (endswith f "-mosaic.png")) listing)))
      as [Hex|Hnex].
    + apply Exists_exists in Hex as (f & Hf & ->). apply Htodo in Hf as [Hf Hend].
      by exists f.
    + destruct Hkey. apply Hkept. intros f Hf Heq.
      apply Hnex, Exists_exists. by exists f.
Qed.

End MainFacts.

(** What [main] writes for the example still by default. *)
Definition example_still_written : gmap string image :=
  match main_image (F := Q) png_only_dir example_stills
          (mk_path "pics" "photo.png") 2 1 0 None ∅ with
  | Ret w => w
  | _ => ∅
  end.

Lemma default_output_spares_input_witness :
  let out_path := path_str (mk_path "pics" (stem "photo.png" +:+ "-mosaic.png")) in
  out_path ≠ path_str (mk_path "pics" "photo.png") ∧
  (∃ canvas, example_still_written = <[out_path := canvas]> ∅) ∧
  ∀ other, other ≠ out_path →
    example_still_written !! other = (∅ : gmap string image) !! other.
Proof.
  apply (default_output_spares_input (F := Q) png_only_dir example_stills
           (mk_path "pics" "photo.png") 2 1 0 None ∅ example_still_written).
  - by left.
  - vm_compute. reflexivity.
Defined.

(** What the frame loop writes for the example clip. *)
Definition example_clip_written : gmap string image :=
  match mosaic_frames (F := Q) example_clip "tmp" example_listing
          black_and_white two_tiles 2 1 4 ∅ with
  | Ret w => w
  | _ => ∅
  end.

Lemma frames_are_never_overwritten_witness :
  (∀ f, f ∈ example_listing → endswith f "-mosaic.png" = false →
     is_Some (example_clip_written
                !! path_str (mk_path "tmp" (stem f +:+ "-mosaic.png"))) ∧
     example_clip_written !! path_str (mk_path "tmp" f)
       = (∅ : gmap string image) !! path_str (mk_path "tmp" f)) ∧
  (∀ key, example_clip_written !! key ≠ (∅ : gmap string image) !! key →
     ∃ f, f ∈ example_listing ∧ endswith f "-mosaic.png" = false ∧
          key = path_str (mk_path "tmp" (stem f +:+ "-mosaic.png"))).
Proof.
  apply (frames_are_never_overwritten (F := Q) example_clip "tmp" example_listing
           black_and_white two_tiles 2 1 4 ∅ example_clip_written).
  vm_compute. reflexivity.
Defined.

(** The run on the example clip: the stale mosaic is skipped and each frame
    gets its mosaic under the name the encoder expects. *)
Example mosaic_frames_example :
  (map_to_list example_clip_written).*1
    ≡ₚ ["tmp/clip-00001-mosaic.png"; "tmp/clip-00002-mosaic.png"].
Proof. by vm_compute. Qed.

(** ** The web front end: form values and the palette cache *)

(** X12.  [clamp_int] answers inside [[minimum, maximum]] whenever the bounds
    are in order and the default lies between them, whatever the form holds;
    a value that parses to a number inside the bounds is returned as it is,
    and a missing or unparsable value gives the default. *)
Theorem clamp_int_in_range (int_of_str : string → option Z) (value : option string)
    (minimum maximum default : Z) :
  (minimum ≤ default ≤ maximum)%Z →
  (minimum ≤ clamp_int int_of_str value minimum maximum default ≤ maximum)%Z ∧
  (∀ n, value ≫= int_of_str = Some n → (minimum ≤ n ≤ maximum)%Z →
        clamp_int int_of_str value minimum maximum default = n) ∧
  (value ≫= int_of_str = None →
     clamp_int int_of_str value minimum maximum default = default).
Proof.
  intros Hdefault. unfold clamp_int.
  destruct (value ≫= int_of_str) as [n|]; split_and!; try done; try lia.
  intros n' [= ->] Hn. lia.
Qed.

(** A stand-in for [int] on the few strings of the examples. *)
Definition example_int (s : string) : option Z :=
  if String.eqb s "16" then Some 16%Z
  else if String.eqb s "1000" then Some 1000%Z
  else if String.eqb s "-3" then Some (-3)%Z
  else None.

Lemma clamp_int_in_range_witness :
  (4 ≤ clamp_int example_int (Some "1000") 4 48 12 ≤ 48)%Z ∧
  (∀ n, Some "1000" ≫= example_int = Some n → (4 ≤ n ≤ 48)%Z →
        clamp_int example_int (Some "1000") 4 48 12 = n) ∧
  (Some "1000" ≫= example_int = None →
     clamp_int example_int (Some "1000") 4 48 12 = 12%Z).
Proof.
  apply (clamp_int_in_range example_int (Some "1000") 4 48 12). lia.
Defined.

Example clamp_int_examples :
  clamp_int example_int (Some "16") 4 48 12 = 16%Z ∧
  clamp_int example_int (Some "1000") 4 48 12 = 48%Z ∧
  clamp_int example_int (Some "-3") 4 48 12 = 4%Z ∧
  clamp_int example_int (Some "abc") 4 48 12 = 12%Z ∧
  clamp_int example_int None 4 48 12 = 12%Z.
Proof. repeat split; reflexivity. Qed.

Section Cache.

Context {F : Type} `{Float F}.
Implicit Types (cache : gmap Z (list (rgb F) * list image)).

(** X13.  Once [get_palette_for_size] has returned a palette for a size,
    every later call for that size returns the same palette and leaves the
    cache alone, even if the tile directory has changed in between; a call
    never touches the entries of other sizes. *)
Theorem palette_cache_is_sticky (emojis_dir later_dir : directory) (size : Z)
    cache cache' (cached : list (rgb F) * list image) :
  get_palette_for_size emojis_dir size cache = (Ret cached, cache') →
  get_palette_for_size later_dir size cache' = (Ret cached, cache') ∧
  cache' !! size = Some cached ∧
  ∀ other, other ≠ size → cache' !! other = cache !! other.
Proof.
  unfold get_palette_for_size.
  destruct (cache !! size) as [hit|] eqn:Hhit.
  - intros [= -> <-]. by rewrite Hhit.
  - destruct (build_emoji_palette emojis_dir size) as [built| |]; [|done..].
    intros [= -> <-]. rewrite lookup_insert_eq. split; [done|]. split; [done|].
    intros other Hother. by rewrite lookup_insert_ne.
Qed.


End Cache.

Lemma palette_cache_is_sticky_witness :
  get_palette_for_size (F := Q) no_png_dir 8
    (get_palette_for_size (F := Q) png_only_dir 8 ∅).2
  = (Ret ([representative_color transparent_tile; representative_color example_tile],
          [Resized (Decoded transparent_tile) 8 8; Resized (Decoded example_tile) 8 8]),
     (get_palette_for_size (F := Q) png_only_dir 8 ∅).2) ∧
  (get_palette_for_size (F := Q) png_only_dir 8 ∅).2 !! 8%Z
  = Some ([representative_color transparent_tile; representative_color example_tile],
          [Resized (Decoded transparent_tile) 8 8; Resized (Decoded example_tile) 8 8]) ∧
  ∀ other, other ≠ 8%Z →
    (get_palette_for_size (F := Q) png_only_dir 8 ∅).2 !! other
    = (∅ : gmap Z (list (rgb Q) * list image)) !! other.
Proof.
  apply (palette_cache_is_sticky (F := Q) png_only_dir no_png_dir 8 ∅).
  by vm_compute.
Defined.


(** ** The web front end: jobs *)

Lemma str_in_elem (x : string) (l : list string) : str_in x l = true ↔ x ∈ l.
Proof.
  unfold str_in. rewrite existsb_exists. split.
  - intros (y & Hy & Heq). apply String.eqb_eq in Heq as ->. by apply list_elem_of_In.
  - intros Hx. exists x. split; [by apply list_elem_of_In|apply String.eqb_refl].
Qed.

(** X15.  When its collaborators return, [run_job] ends in one of two
    states.  If the script exits with 0 (and, for a GIF of a video, the
    second ffmpeg pass does too) the job is [done] at 100 percent and its
    output path is the file of its kind and format, beside the input.
    Otherwise the job is in [error], below 100 percent, and its output path is
    left as it was.  No exception escapes, the job keeps its identity and
    settings, and the return code of the first GIF pass plays no part. *)
Theorem run_job_outcome (j : Job) (o : outcomes) (script_rc gen_rc use_rc : Z) :
  basename (job_input_path j) ≠ "" →
  script o = Exited script_rc → jpeg o = Exited () →
  palettegen o = Exited gen_rc → paletteuse o = Exited use_rc →
  let j' := (run_job j o).1 in
  (run_job j o).2 = None ∧
  (job_id j', job_input_path j', job_fps j', job_size j',
   job_out_format j', job_media_kind j', job_created_at j')
  = (job_id j, job_input_path j, job_fps j, job_size j,
     job_out_format j, job_media_kind j, job_created_at j) ∧
  if job_succeeds j script_rc use_rc
  then job_status j' = "done" ∧ job_progress j' = 100%Z ∧ job_message j' = "Done" ∧
       job_output_path j'
       = Some (path_str (mk_path (dirname (job_input_path j)) (output_name j)))
  else job_status j' = "error" ∧ (job_progress j' < 100)%Z ∧
       job_output_path j' = job_output_path j.
Proof.
  intros Hname Hscript Hjpeg Hgen Huse.
  apply String.eqb_neq in Hname.
  unfold run_job, job_succeeds, output_name, with_name.
  cbn -[str_in String.eqb Z.eqb path_str].
  rewrite Hname, Hscript.
  destruct (String.eqb (job_media_kind j) "image");
    cbn -[str_in String.eqb Z.eqb path_str].
  - destruct (script_rc =? 0)%Z; cbn -[str_in String.eqb Z.eqb path_str]; [|done].
    destruct (str_in (job_out_format j) ["jpg"; "jpeg"]);
      cbn -[str_in String.eqb Z.eqb path_str]; [|done].
    by rewrite Hjpeg.
  - destruct (script_rc =? 0)%Z; cbn -[str_in String.eqb Z.eqb path_str]; [|done].
    destruct (String.eqb (job_out_format j) "gif");
      cbn -[str_in String.eqb Z.eqb path_str]; [|done].
    rewrite Hgen, Huse. by destruct (use_rc =? 0)%Z.
Qed.

Definition example_job : Job :=
  Job_init "j1" 0 (mk_path "jobs/d1" "clip.mov") 8 12 "gif" "video".

Lemma run_job_outcome_witness :
  let j' := (run_job example_job (mk_outcomes (Exited 0%Z) (Exited ())
                                              (Exited 1%Z) (Exited 0%Z))).1 in
  (run_job example_job (mk_outcomes (Exited 0%Z) (Exited ())
                                    (Exited 1%Z) (Exited 0%Z))).2 = None ∧
  (job_id j', job_input_path j', job_fps j', job_size j',
   job_out_format j', job_media_kind j', job_created_at j')
  = (job_id example_job, job_input_path example_job, job_fps example_job,
     job_size example_job, job_out_format example_job,
     job_media_kind example_job, job_created_at example_job) ∧
  if job_succeeds example_job 0 0
  then job_status j' = "done" ∧ job_progress j' = 100%Z ∧ job_message j' = "Done" ∧
       job_output_path j'
       = Some (path_str (mk_path (dirname (job_input_path example_job))
                                 (output_name example_job)))
  else job_status j' = "error" ∧ (job_progress j' < 100)%Z ∧
       job_output_path j' = job_output_path example_job.
Proof.
  apply (run_job_outcome example_job
           (mk_outcomes (Exited 0%Z) (Exited ()) (Exited 1%Z) (Exited 0%Z)) 0 1 0).
  - discriminate.
  - reflexivity.
  - reflexivity.
  - reflexivity.
  - reflexivity.
Defined.

Ltac job_step :=
  cbn -[str_in String.eqb Z.eqb path_str suffix String.append].

(** A job that [run_job] leaves in [done] was finished by it: no exception
    escaped and the output path is the file of the job's kind and format. *)
Lemma run_job_done (j : Job) (o : outcomes) :
  job_status (run_job j o).1 = "done" →
  (run_job j o).2 = None ∧
  job_output_path (run_job j o).1
  = Some (path_str (mk_path (dirname (job_input_path j)) (output_name j))).
Proof.
  unfold run_job, output_name, with_name. job_step.
  destruct (String.eqb (basename (job_input_path j)) ""); job_step; [done|].
  destruct (String.eqb (job_media_kind j) "image"); job_step.
  - destruct (script o) as [rc|e]; job_step; [|done].
    destruct (rc =? 0)%Z; job_step; [|done].
    destruct (str_in (job_out_format j) ["jpg"; "jpeg"]); job_step; [|done].
    by destruct (jpeg o).
  - destruct (script o) as [rc|e]; job_step; [|done].
    destruct (rc =? 0)%Z; job_step; [|done].
    destruct (String.eqb (job_out_format j) "gif"); job_step; [|done].
    destruct (palettegen o); job_step; [|done].
    destruct (paletteuse o) as [use|e]; job_step; [|done].
    by destruct (use =? 0)%Z.
Qed.

Lemma run_job_keeps_settings (j : Job) (o : outcomes) :
  job_media_kind (run_job j o).1 = job_media_kind j ∧
  job_out_format (run_job j o).1 = job_out_format j.
Proof.
  unfold run_job, with_name. job_step.
  destruct (String.eqb (basename (job_input_path j)) ""); job_step; [done|].
  destruct (String.eqb (job_media_kind j) "image"); job_step.
  - destruct (script o) as [rc|e]; job_step; [|done].
    destruct (rc =? 0)%Z; job_step; [|done].
    destruct (str_in (job_out_format j) ["jpg"; "jpeg"]); job_step; [|done].
    by destruct (jpeg o).
  - destruct (script o) as [rc|e]; job_step; [|done].
    destruct (rc =? 0)%Z; job_step; [|done].
    destruct (String.eqb (job_out_format j) "gif"); job_step; [|done].
    destruct (palettegen o); job_step; [|done].
    destruct (paletteuse o) as [use|e]; job_step; [|done].
    by destruct (use =? 0)%Z.
Qed.

(** X16.  [download] after [run_job]: either it refuses with code 400,
    exactly when the job did not end in [done]; or it sends the file that
    [run_job] recorded for the job's kind and format, under a download name
    with the same extension as that file.  A job whose run raised an
    exception is never offered for download. *)
Theorem download_matches_output (j : Job) (o : outcomes) :
  match download (Some (run_job j o).1) with
  | SendFile file name =>
      (run_job j o).2 = None ∧
      job_status (run_job j o).1 = "done" ∧
      file = Some (path_str (mk_path (dirname (job_input_path j)) (output_name j))) ∧
      suffix (output_name j) = suffix name
  | JsonError _ code => code = 400%Z ∧ job_status (run_job j o).1 ≠ "done"
  | _ => False
  end.
Proof.
  unfold download.
  destruct (String.eqb_spec (job_status (run_job j o).1) "done") as [Hdone|Hnot];
    job_step; [|done].
  destruct (run_job_done j o Hdone) as [Hexn Hout].
  destruct (run_job_keeps_settings j o) as [-> ->].
  split; [done|]. split; [done|]. split; [done|].
  unfold output_name.
  destruct (String.eqb (job_media_kind j) "image").
  - destruct (str_in (job_out_format j) ["jpg"; "jpeg"]); reflexivity.
  - destruct (String.eqb (job_out_format j) "gif"); reflexivity.
Qed.

(** ** The web front end: [process] and the worker *)

Section WebFacts.

Context {F : Type} `{Float F}.

Variable float_of_str : string → F.
Variable int_of_str : string → option Z.
Variable lower : string → string.
Variable upload_path : string → string → path.

Local Abbreviation process' := (process float_of_str int_of_str lower upload_path).

Lemma detect_media_kind_cases (input_path : path) (mime_type : string) :
  detect_media_kind lower input_path mime_type = "image" ∨
  detect_media_kind lower input_path mime_type = "video" ∨
  detect_media_kind lower input_path mime_type = "unknown".
Proof.
  unfold detect_media_kind.
  destruct (_ || _); [by left|]. destruct (_ || _); [right; by left|right; by right].
Qed.

Lemma search_duration_absent (s : string) :
  occurs "Duration:" s = false → search_duration s = None.
Proof.
  induction s as [|c s IH]; cbn [occurs search_duration].
  - unfold match_duration_here. by intros ->%orb_false_elim%proj1.
  - intros [Hhere Hrest]%orb_false_elim.
    unfold match_duration_here. rewrite Hhere. by apply IH.
Qed.

(** What [process] does when it accepts an upload. *)
Lemma process_accepted (req : request) (env : process_env) (st st' : app)
    (id kind : string) :
  process' req env st = (inl (JsonAccepted id kind), st') →
  ∃ media out_format,
    let input_path := upload_path (dir_uuid env) (filename media) in
    let job := Job_init (job_uuid env) (now env) input_path
                 (clamp_int int_of_str (form req !! "fps") 1 30 8)
                 (clamp_int int_of_str (form req !! "size") 4 48 12)
                 out_format kind in
    requested_media req = Some media ∧ filename media ≠ "" ∧
    saved env = Exited () ∧
    id = job_uuid env ∧
    kind = detect_media_kind lower input_path (mimetype media) ∧
    ((kind = "image" ∧ out_format = lower (default "png" (form req !! "format")) ∧
      out_format ∈ ["png"; "jpg"; "jpeg"]) ∨
     (kind = "video" ∧ out_format = lower (default "mp4" (form req !! "format")) ∧
      out_format ∈ ["mp4"; "gif"] ∧
      ∃ output, ffmpeg_output env = Exited output ∧
        fltb (of_int 15) (parse_duration_seconds float_of_str output) = false)) ∧
    st' = mk_app (heap st ++ [job])
                 (<[id := length (heap st)]> (jobs st))
                 (job_queue st ++ [length (heap st)])
                 (uploads st ++ [path_str input_path]).
Proof.
  unfold process. cbv zeta.
  destruct (requested_media req) as [media|]; [|done].
  destruct (String.eqb_spec (filename media) "") as [|Hname]; [done|].
  destruct (saved env) as [[]|e]; [|done].
  remember (detect_media_kind lower (upload_path (dir_uuid env) (filename media))
              (mimetype media)) as kind0 eqn:Hkind.
  destruct (String.eqb_spec kind0 "unknown") as [|Hunknown]; [done|].
  destruct (String.eqb_spec kind0 "video") as [Hvideo|Hnotvideo].
  - destruct (str_in (lower (default "mp4" (form req !! "format"))) ["mp4"; "gif"])
      eqn:Hfmt; cbn [negb]; [|done].
    destruct (ffmpeg_output env) as [output|e]; [|done].
    destruct (fltb (of_int 15) (parse_duration_seconds float_of_str output))
      eqn:Hlong; [done|].
    cbn [heap jobs job_queue uploads job_id Job_init].
    intros [= <- <- <-].
    exists media, (lower (default "mp4" (form req !! "format"))).
    cbv zeta. rewrite <- Hkind. split_and!; try done.
    right. split_and!; try done; [by apply str_in_elem|by exists output].
  - destruct (str_in (lower (default "png" (form req !! "format")))
                ["png"; "jpg"; "jpeg"])
      eqn:Hfmt; cbn [negb]; [|done].
    cbn [heap jobs job_queue uploads job_id Job_init].
    intros [= <- <- <-].
    exists media, (lower (default "png" (form req !! "format"))).
    cbv zeta. rewrite <- Hkind. split_and!; try done.
    left. split_and!; try done; [|by apply str_in_elem].
    destruct (detect_media_kind_cases
                (upload_path (dir_uuid env) (filename media)) (mimetype media))
      as [Hk|[Hk|Hk]]; congruence.
Qed.

Lemma clamp_int_bounds (value : option string) (minimum maximum default : Z) :
  (minimum ≤ default ≤ maximum)%Z →
  (minimum ≤ clamp_int int_of_str value minimum maximum default ≤ maximum)%Z.
Proof. intros Hd. unfold clamp_int. destruct (value ≫= int_of_str); lia. Qed.

(** X17.  A job that [process] accepts is filed under the id it answers and
    put at the back of the queue, as one and the same object; it is
    [queued] at 0 percent without an output, its [fps] lies in [[1, 30]], its
    [size] in [[4, 48]], and its format is one its kind allows.  The jobs
    filed before are untouched. *)
Theorem process_queues_admissible_job (req : request) (env : process_env)
    (st st' : app) (id kind : string) :
  refs_valid st →
  process' req env st = (inl (JsonAccepted id kind), st') →
  ∃ job,
    jobs_get st' id = Some job ∧ job_id job = id ∧ job_media_kind job = kind ∧
    job_admissible job ∧
    heap st' = heap st ++ [job] ∧
    job_queue st' = job_queue st ++ [length (heap st)] ∧
    (∀ id', id' ≠ id → jobs_get st' id' = jobs_get st id') ∧
    refs_valid st'.
Proof.
  intros [Hjobs Hqueue] Hrun.
  destruct (process_accepted _ _ _ _ _ _ Hrun)
    as (media & out_format & _ & _ & _ & -> & _ & Hformat & ->).
  eexists. split.
  { unfold jobs_get. cbn [jobs heap]. rewrite lookup_insert_eq. cbn.
    by rewrite lookup_app_r, Nat.sub_diag by lia. }
  split_and!; try done.
  - unfold job_admissible. cbn.
    split; [apply clamp_int_bounds; lia|].
    split; [apply clamp_int_bounds; lia|].
    split_and!; try done.
    destruct Hformat as [(? & _ & ?)|(? & _ & ? & _)]; [by left|by right].
  - intros id' Hne. unfold jobs_get. cbn [jobs heap].
    rewrite lookup_insert_ne by done.
    destruct (jobs st !! id') as [ref|] eqn:Hid; [|done]. cbn.
    apply Hjobs in Hid. by rewrite lookup_app_l.
  - split; cbn [jobs heap job_queue].
    + intros id' ref. rewrite length_app. cbn.
      destruct (decide (job_uuid env = id')) as [->|Hne].
      * rewrite lookup_insert_eq. intros [= <-]. lia.
      * rewrite lookup_insert_ne by done. intros Hid%Hjobs. lia.
    + rewrite length_app. cbn. apply Forall_app. split.
      * eapply Forall_impl; [exact Hqueue|]. cbn. lia.
      * apply Forall_singleton. lia.
Qed.

(** X18.  A refusal of [process] carries code 400 and files and queues
    nothing.  The two refusals for a missing file leave the disk alone; the
    four later ones come after the upload was saved, and the file stays. *)
Theorem process_refusal_queues_nothing (req : request) (env : process_env)
    (st st' : app) (msg : string) (code : Z) :
  process' req env st = (inl (JsonError msg code), st') →
  code = 400%Z ∧ heap st' = heap st ∧ jobs st' = jobs st ∧
  job_queue st' = job_queue st ∧
  ((msg ∈ ["Missing file"; "No file selected"] ∧ uploads st' = uploads st) ∨
   (msg ∈ ["Unsupported file type. Use video or image files.";
           "Invalid format for video"; "Video must be 15 seconds or less";
           "Invalid format for image"] ∧
    ∃ media, requested_media req = Some media ∧
      uploads st' = uploads st ++
                    [path_str (upload_path (dir_uuid env) (filename media))])).
Proof.
  unfold process. cbv zeta.
  destruct (requested_media req) as [media|].
  2:{ intros [= <- <- <-]. split_and!; try done. left. split; [|done]. set_solver. }
  destruct (String.eqb (filename media) "").
  { intros [= <- <- <-]. split_and!; try done. left. split; [|done]. set_solver. }
  destruct (saved env) as [[]|e]; [|done].
  destruct (String.eqb _ "unknown").
  { intros [= <- <- <-]. split_and!; try done. right. split; [set_solver|].
    by exists media. }
  destruct (String.eqb _ "video").
  - destruct (str_in _ ["mp4"; "gif"]); cbn [negb].
    + destruct (ffmpeg_output env) as [output|e]; [|done].
      destruct (fltb _ _); [|done].
      intros [= <- <- <-]. split_and!; try done. right. split; [set_solver|].
      by exists media.
    + intros [= <- <- <-]. split_and!; try done. right. split; [set_solver|].
      by exists media.
  - destruct (str_in _ ["png"; "jpg"; "jpeg"]); cbn [negb]; [done|].
    intros [= <- <- <-]. split_and!; try done. right. split; [set_solver|].
    by exists media.
Qed.

(** X19.  A video about which ffmpeg prints no [Duration:] passes the
    15-second limit: its duration reads as 0. *)
Theorem video_of_unknown_duration_is_accepted (req : request) (env : process_env)
    (st : app) (media : upload) (output : string) :
  requested_media req = Some media → filename media ≠ "" →
  saved env = Exited () →
  detect_media_kind lower (upload_path (dir_uuid env) (filename media))
                    (mimetype media) = "video" →
  lower (default "mp4" (form req !! "format")) ∈ ["mp4"; "gif"] →
  ffmpeg_output env = Exited output →
  occurs "Duration:" output = false →
  fltb (of_int 15) (of_int 0) = false →
  (process' req env st).1 = inl (JsonAccepted (job_uuid env) "video").
Proof.
  intros Hmedia Hname%String.eqb_neq Hsaved Hkind Hformat%str_in_elem Hout Hnone Hzero.
  unfold process. cbv zeta. rewrite Hmedia, Hname, Hsaved, Hkind.
  cbn [String.eqb Ascii.eqb Bool.eqb]. rewrite Hformat. cbn [negb]. rewrite Hout.
  unfold parse_duration_seconds. rewrite (search_duration_absent _ Hnone).
  by rewrite Hzero.
Qed.


(** *** Durations *)

Lemma span_digits_append (d rest : string) :
  forallb is_digit (String.list_ascii_of_string d) = true →
  no_digit_ahead rest = true →
  span_digits (d +:+ rest) = (d, rest).
Proof.
  intros Hd Hrest. induction d as [|c d IH].
  - destruct rest as [|c r]; [done|].
    change (span_digits (String c r) = ("", String c r)).
    cbn [no_digit_ahead span_digits] in *.
    by apply negb_true_iff in Hrest as ->.
  - cbn [String.list_ascii_of_string forallb] in Hd. apply andb_prop in Hd as [Hc Hd].
    rewrite append_cons. cbn [span_digits]. by rewrite Hc, (IH Hd).
Qed.

Lemma sep_digits_append (c : Ascii.ascii) (d rest : string) :
  digits d = true → no_digit_ahead rest = true →
  sep_digits c (String c (d +:+ rest)) = Some (d, rest).
Proof.
  intros [Hne Hd]%andb_prop Hrest. unfold sep_digits.
  rewrite Ascii.eqb_refl, (span_digits_append _ _ Hd Hrest).
  by apply negb_true_iff in Hne as ->.
Qed.

Lemma match_duration_line (hours minutes seconds fraction rest : string) :
  digits hours = true → digits minutes = true →
  digits seconds = true → digits fraction = true →
  no_digit_ahead rest = true →
  match_duration_here
    ("Duration: " +:+ hours +:+ ":" +:+ minutes +:+ ":" +:+ seconds +:+ "."
       +:+ fraction +:+ rest)
  = Some (hours, minutes, seconds +:+ "." +:+ fraction).
Proof.
  intros Hh Hm Hs Hf Hrest. unfold match_duration_here, str_from.
  rewrite !append_cons.
  repeat match goal with |- context ["" +:+ ?x] => change ("" +:+ x) with x end.
  replace (String.prefix _ _) with true by (by vm_compute).
  cbn [String.length Nat.sub String.substring].
  rewrite substring_all.
  replace (is_space _) with true by (by vm_compute).
  pose proof Hh as [Hne Hd]%andb_prop.
  rewrite (span_digits_append hours _ Hd) by done.
  apply negb_true_iff in Hne as ->.
  fold colon. fold dot.
  rewrite (sep_digits_append colon minutes) by done. cbn [mbind option_bind].
  rewrite (sep_digits_append colon seconds) by done. cbn [mbind option_bind].
  by rewrite (sep_digits_append dot fraction).
Qed.

Lemma match_duration_needs_prefix (s : string) :
  String.prefix "Duration:" s = false → match_duration_here s = None.
Proof. intros Hs. unfold match_duration_here. by rewrite Hs. Qed.

Lemma search_duration_here (s : string) (groups : string * string * string) :
  match_duration_here s = Some groups → search_duration s = Some groups.
Proof. intros Hs. destruct s; cbn [search_duration]; by rewrite Hs. Qed.

Lemma prefix_across (pre t : string) :
  pre ≠ "" → String.prefix "Duration:" pre = false →
  String.prefix "Duration:" (pre +:+ "Duration:" +:+ t) = false.
Proof.
  intros Hne Hpre.
  destruct pre as [|c pre]; [done|]. clear Hne.
  rewrite append_cons. cbn [String.prefix] in *.
  destruct (Ascii.ascii_dec _ c) as [<-|]; [|done].
  repeat (destruct pre as [|c pre]; [by vm_compute|];
          rewrite append_cons; cbn [String.prefix] in *;
          destruct (Ascii.ascii_dec _ c) as [<-|]; [|done]).
  by destruct pre.
Qed.

Lemma search_duration_skips (pre t : string) :
  occurs "Duration:" pre = false →
  search_duration (pre +:+ "Duration:" +:+ t) = search_duration ("Duration:" +:+ t).
Proof.
  induction pre as [|c pre IH]; [done|].
  cbn [occurs]. intros [Hhere Hrest]%orb_false_elim.
  rewrite append_cons. cbn [search_duration].
  rewrite match_duration_needs_prefix; [by apply IH|].
  rewrite <- append_cons. by apply prefix_across.
Qed.


End WebFacts.

(** X22.  [run_job] handles no exception: when one escapes (the script or
    ffmpeg cannot be started, Pillow cannot read the mosaic), the job is
    left in [processing] without an output, at most at 85 percent, and
    [download] keeps answering that it is not ready. *)
Theorem escaped_exception_leaves_job_processing (j : Job) (o : outcomes) (e : exn) :
  (run_job j o).2 = Some e →
  job_status (run_job j o).1 = "processing" ∧
  job_output_path (run_job j o).1 = job_output_path j ∧
  (10 ≤ job_progress (run_job j o).1 ≤ 85)%Z ∧
  download (Some (run_job j o).1) = JsonError "Not ready" 400.
Proof.
  intros Hexn.
  assert (job_status (run_job j o).1 = "processing" ∧
          job_output_path (run_job j o).1 = job_output_path j ∧
          (10 ≤ job_progress (run_job j o).1 ≤ 85)%Z) as (Hstatus & Hout & Hprogress).
  { revert Hexn. unfold run_job, with_name. job_step.
    destruct (String.eqb (basename (job_input_path j)) ""); job_step; [done|].
    destruct (String.eqb (job_media_kind j) "image"); job_step.
    - destruct (script o) as [rc|e']; job_step; [|done].
      destruct (rc =? 0)%Z; job_step; [|done].
      destruct (str_in (job_out_format j) ["jpg"; "jpeg"]); job_step; [|done].
      by destruct (jpeg o).
    - destruct (script o) as [rc|e']; job_step; [|done].
      destruct (rc =? 0)%Z; job_step; [|done].
      destruct (String.eqb (job_out_format j) "gif"); job_step; [|done].
      destruct (palettegen o); job_step; [|done].
      destruct (paletteuse o) as [rc'|e']; job_step; [|done].
      by destruct (rc' =? 0)%Z. }
  split; [done|]. split; [done|]. split; [done|].
  unfold download. by rewrite Hstatus.
Qed.

Lemma escaped_exception_leaves_job_processing_witness :
  let j := Job_init "j2" 0 (mk_path "jobs/d2" "cat.png") 8 12 "jpg" "image" in
  let o := mk_outcomes (Exited 0%Z) (Threw UnidentifiedImageError)
                       (Exited 0%Z) (Exited 0%Z) in
  job_status (run_job j o).1 = "processing" ∧
  job_output_path (run_job j o).1 = job_output_path j ∧
  (10 ≤ job_progress (run_job j o).1 ≤ 85)%Z ∧
  download (Some (run_job j o).1) = JsonError "Not ready" 400.
Proof.
  intros j o.
  apply (escaped_exception_leaves_job_processing j o UnidentifiedImageError).
  reflexivity.
Defined.

(** Stand-ins for the examples: [float] on the one text they need,
    [str.lower] on text that is lower case already, and the job directory
    under the system's temporary directory. *)
Definition example_float (s : string) : Q :=
  if String.eqb s "10.50" then 21 # 2 else 0.

Definition example_lower (s : string) : string := s.

Definition example_upload_path (dir name : string) : path :=
  mk_path ("/tmp/emojisaic_jobs/" +:+ dir) name.

Definition example_request : request :=
  mk_request {[ "media" := mk_upload "clip.mov" "video/quicktime" ]}
             {[ "fps" := "16" ]}.

Definition example_refused_request : request :=
  mk_request {[ "media" := mk_upload "notes.txt" "text/plain" ]} ∅.

Definition example_env : process_env :=
  mk_env "d1" "j1" 0 (Exited ())
         (Exited "Input #0, mov, from 'clip.mov':  Duration: 00:00:10.50, start: 0.000000").

Definition example_silent_env : process_env :=
  mk_env "d1" "j1" 0 (Exited ()) (Exited "clip.mov: Invalid data found").

Definition example_app : app := mk_app [] ∅ [] [].

Definition example_process (req : request) (env : process_env) : (response + exn) * app :=
  process example_float example_int example_lower example_upload_path
          req env example_app.

Lemma process_queues_admissible_job_witness :
  ∃ job,
    jobs_get (example_process example_request example_env).2 "j1" = Some job ∧
    job_id job = "j1" ∧ job_media_kind job = "video" ∧
    job_admissible job ∧
    heap (example_process example_request example_env).2 = heap example_app ++ [job] ∧
    job_queue (example_process example_request example_env).2
    = job_queue example_app ++ [length (heap example_app)] ∧
    (∀ id', id' ≠ "j1" →
       jobs_get (example_process example_request example_env).2 id'
       = jobs_get example_app id') ∧
    refs_valid (example_process example_request example_env).2.
Proof.
  apply (process_queues_admissible_job example_float example_int example_lower
           example_upload_path example_request example_env example_app
           (example_process example_request example_env).2 "j1" "video").
  - split; [|constructor]. intros id ref. cbn. by rewrite lookup_empty.
  - vm_compute. reflexivity.
Defined.

Lemma process_refusal_queues_nothing_witness :
  400%Z = 400%Z ∧
  heap (example_process example_refused_request example_env).2 = heap example_app ∧
  jobs (example_process example_refused_request example_env).2 = jobs example_app ∧
  job_queue (example_process example_refused_request example_env).2
  = job_queue example_app ∧
  (("Unsupported file type. Use video or image files."
      ∈ ["Missing file"; "No file selected"] ∧
    uploads (example_process example_refused_request example_env).2
    = uploads example_app) ∨
   ("Unsupported file type. Use video or image files."
      ∈ ["Unsupported file type. Use video or image files.";
         "Invalid format for video"; "Video must be 15 seconds or less";
         "Invalid format for image"] ∧
    ∃ media, requested_media example_refused_request = Some media ∧
      uploads (example_process example_refused_request example_env).2
      = uploads example_app ++
        [path_str (example_upload_path (dir_uuid example_env) (filename media))])).
Proof.
  apply (process_refusal_queues_nothing example_float example_int example_lower
           example_upload_path example_refused_request example_env example_app
           (example_process example_refused_request example_env).2
           "Unsupported file type. Use video or image files." 400).
  vm_compute. reflexivity.
Defined.

Lemma video_of_unknown_duration_is_accepted_witness :
  (process example_float example_int example_lower example_upload_path
           example_request example_silent_env example_app).1
  = inl (JsonAccepted (job_uuid example_silent_env) "video").
Proof.
  apply (video_of_unknown_duration_is_accepted example_float example_int
           example_lower example_upload_path example_request example_silent_env
           example_app (mk_upload "clip.mov" "video/quicktime")
           "clip.mov: Invalid data found").
  - vm_compute. reflexivity.
  - discriminate.
  - reflexivity.
  - vm_compute. reflexivity.
  - apply str_in_elem. vm_compute. reflexivity.
  - reflexivity.
  - vm_compute. reflexivity.
  - reflexivity.
Defined.


